(** * Log analyzer: scanning, incremental tailing and the monitoring loop

    A shallow embedding of [log_analyzer_module/log_analyzer.py]
    (class [LogAnalyzer]) and the properties of its scanning engine.

    Conventions of the embedding.
    - A Python [str] is a [string]; a character is a code point below 256.
      Log files are taken to hold ASCII text, so that the utf-8 decoding done
      by [open(..., 'r', encoding='utf-8')] is the identity and a byte offset
      is a character offset.
    - [self.file_positions] (a dict) is a [gmap string nat]; the [Counter]
      under ["message_counts"] is a [gmap string nat] whose missing keys
      count for 0.
    - The file system is an explicit value: a scan reads it, and it does not
      change while one scan runs.
    - [None] results are [option]; the [IOError] that [os.stat] or [open]
      raises is a [None] of that operation, and the one raised while the
      lines are read ends the lines read. *)

From Stdlib Require Import Ascii String.
From stdpp Require Import gmap strings list.

(** ** Python string primitives *)

Module Str.

(** [s.startswith(p)] *)
Fixpoint startswith (p s : string) : bool :=
  match p, s with
  | EmptyString, _ => true
  | String _ _, EmptyString => false
  | String a p', String b s' => Ascii.eqb a b && startswith p' s'
  end.

(** [sub in s]: the literal, case-sensitive substring test. *)
Fixpoint contains (sub s : string) : bool :=
  startswith sub s ||
  match s with
  | EmptyString => false
  | String _ s' => contains sub s'
  end.

(** [s.endswith(p)] *)
Definition endswith (p s : string) : bool :=
  startswith (String.rev p) (String.rev s).

(** [c.isspace()] on code points below 256. *)
Definition isspace (c : ascii) : bool :=
  match nat_of_ascii c with
  | 9 | 10 | 11 | 12 | 13 | 28 | 29 | 30 | 31 | 32 | 133 | 160 => true
  | _ => false
  end.

Fixpoint lstrip (s : string) : string :=
  match s with
  | EmptyString => EmptyString
  | String c s' => if isspace c then lstrip s' else s
  end.

Fixpoint rstrip (s : string) : string :=
  match s with
  | EmptyString => EmptyString
  | String c s' =>
      match rstrip s' with
      | EmptyString => if isspace c then EmptyString else String c EmptyString
      | r => String c r
      end
  end.

(** [s.strip()] *)
Definition strip (s : string) : string := rstrip (lstrip s).

(** [s[n:]] *)
Fixpoint drop (n : nat) (s : string) : string :=
  match n, s with
  | 0, _ => s
  | S _, EmptyString => EmptyString
  | S n', String _ s' => drop n' s'
  end.

(** [os.path.basename(p)]: what follows the last ["/"]. *)
Fixpoint basename_go (cur p : string) : string :=
  match p with
  | EmptyString => cur
  | String c p' =>
      if Ascii.eqb c "/"%char then basename_go EmptyString p'
      else basename_go (cur +:+ String c EmptyString) p'
  end.
Definition basename (p : string) : string := basename_go EmptyString p.

(** The lines that iterating a text-mode file yields for the text [s]:
    universal newlines, so a line ends at ["\n"], ["\r\n"] or a lone
    ["\r"], each handed over as ["\n"]; a last line without terminator is
    yielded as it is. [cur] is the line read so far. *)
Fixpoint lines_go (cur s : string) : list string :=
  match s with
  | EmptyString =>
      match cur with EmptyString => [] | _ => [cur] end
  | String c s' =>
      if Ascii.eqb c "010"%char then
        (cur +:+ String "010"%char EmptyString) :: lines_go EmptyString s'
      else if Ascii.eqb c "013"%char then
        (cur +:+ String "010"%char EmptyString) ::
        match s' with
        | String "010"%char s'' => lines_go EmptyString s''
        | _ => lines_go EmptyString s'
        end
      else lines_go (cur +:+ String c EmptyString) s'
  end.
Definition lines (s : string) : list string := lines_go EmptyString s.

End Str.

(** ** The compiled pattern [time_pattern]

  [re.compile(r'(\d{2}-\d{2}-\d{4} \d{2}:\d{2}:\d{2})')]: a sequence of
  one-character items, each a decimal digit or a literal character. *)

Module Re.

Inductive item : Type :=
| Digit
| Lit (c : ascii).

(** [\d] on code points below 256: the ten characters ["0"] to ["9"]. *)
Definition isdigit (c : ascii) : bool :=
  (48 <=? nat_of_ascii c) && (nat_of_ascii c <=? 57).

Definition item_matches (i : item) (c : ascii) : bool :=
  match i with
  | Digit => isdigit c
  | Lit l => Ascii.eqb l c
  end.

(** [pattern.match(s)]: the text matched at the start of [s]. *)
Fixpoint match_here (p : list item) (s : string) : option string :=
  match p with
  | [] => Some EmptyString
  | i :: p' =>
      match s with
      | EmptyString => None
      | String c s' =>
          if item_matches i c then
            match match_here p' s' with
            | Some m => Some (String c m)
            | None => None
            end
          else None
      end
  end.

(** [pattern.search(s)] followed by [.group(0)]: the leftmost match. *)
Fixpoint search (p : list item) (s : string) : option string :=
  match match_here p s with
  | Some m => Some m
  | None =>
      match s with
      | EmptyString => None
      | String _ s' => search p s'
      end
  end.

End Re.

Definition time_pattern : list Re.item :=
  [Re.Digit; Re.Digit; Re.Lit "-"%char; Re.Digit; Re.Digit; Re.Lit "-"%char;
   Re.Digit; Re.Digit; Re.Digit; Re.Digit; Re.Lit " "%char;
   Re.Digit; Re.Digit; Re.Lit ":"%char; Re.Digit; Re.Digit; Re.Lit ":"%char;
   Re.Digit; Re.Digit].

(** The timestamp of a line that has none. *)

Definition unknown_time : string := "Unknown Time".

(** ** The statistics dictionary *)

(** One entry of ["startup_events"] or ["stop_events"]. *)
Record Event : Type := mkEvent {
  timestamp : string;
  file : string;
  line : string
}.

Record Stats : Type := mkStats {
  startup_events : list Event;
  stop_events : list Event;
  message_counts : gmap string nat
}.

Global Instance Event_eq_dec : EqDecision Event.
Proof. solve_decision. Defined.

(** The dictionary both scans start from. *)
Definition empty_stats : Stats :=
  {| startup_events := []; stop_events := []; message_counts := ∅ |}.

(** [Counter.__getitem__]: a missing key counts for 0. *)
Definition count (c : gmap string nat) (msg : string) : nat :=
  default 0 (c !! msg).

(** [counter[msg] += 1] *)
Definition incr (msg : string) (c : gmap string nat) : gmap string nat :=
  <[msg := S (count c msg)]> c.

(** ** The analyzer object *)

Record LogAnalyzer : Type := mkLogAnalyzer {
  directory_path : string;
  startup_msg : string;
  stop_msg : string;
  search_list : list string;
  monitor_interval : nat;
  file_positions : gmap string nat
}.

(** [LogAnalyzer.__init__] *)
Definition init (directory_path startup_msg stop_msg : string)
    (search_list : list string) (monitor_interval : nat) : LogAnalyzer :=
  {| directory_path := directory_path;
     startup_msg := startup_msg;
     stop_msg := stop_msg;
     search_list := search_list;
     monitor_interval := monitor_interval;
     file_positions := ∅ |}.

(** [self.file_positions = fp] *)
Definition set_file_positions (self : LogAnalyzer) (fp : gmap string nat)
    : LogAnalyzer :=
  {| directory_path := directory_path self;
     startup_msg := startup_msg self;
     stop_msg := stop_msg self;
     search_list := search_list self;
     monitor_interval := monitor_interval self;
     file_positions := fp |}.

(** [self.file_positions.get(log_file, 0)] *)
Definition position_of (self : LogAnalyzer) (log_file : string) : nat :=
  default 0 (file_positions self !! log_file).

(** ** The file system *)

(** A file: whether [open] succeeds on it, whether reading it runs into an
    [IOError] and, if so, after how many lines were handed over, and its
    bytes. *)
Record File : Type := mkFile {
  readable : bool;
  read_fails_after : option nat;
  content : string
}.

(** What [for line in file] yields: the lines up to the end of the file, or
    the lines handed over before the [IOError]. *)
Inductive ReadResult : Type :=
| ReadToEnd (lines : list string)
| ReadInterrupted (lines : list string).

(** [listing] gives, for a directory that exists, the names of its entries
    in the order the operating system enumerates them; [nodes] gives the
    file behind a path. A listed name without a node is an entry that
    [os.stat] fails on. *)
Record FileSystem : Type := mkFileSystem {
  listing : gmap string (list string);
  nodes : gmap string File
}.

(** [os.stat(path).st_size]; [None] stands for the [OSError]. *)
Definition st_size (fs : FileSystem) (path : string) : option nat :=
  String.length ∘ content <$> nodes fs !! path.

(** [open(path, 'r', encoding='utf-8')], [file.seek(pos)] and the
    iteration over the lines; [None] stands for the [IOError] of [open]. *)
Definition read_from (fs : FileSystem) (path : string) (pos : nat)
    : option ReadResult :=
  match nodes fs !! path with
  | Some f =>
      if readable f then
        let lines := Str.lines (Str.drop pos (content f)) in
        match read_fails_after f with
        | None => Some (ReadToEnd lines)
        | Some k => Some (ReadInterrupted (take k lines))
        end
      else None
  | None => None
  end.

(** [fnmatch] of a name against ["*.log"] as [glob] applies it: names that
    start with a dot are hidden from [*]. *)
Definition is_log_name (name : string) : bool :=
  negb (Str.startswith "." name) && Str.endswith ".log" name.

(** [glob.glob(f"{directory_path}/*.log")], for a [directory_path] that
    has no glob metacharacter and no trailing slash: empty when the directory
    cannot be listed. *)
Definition glob_logs (fs : FileSystem) (directory_path : string)
    : list string :=
  match listing fs !! directory_path with
  | Some names =>
      List.map (fun name => directory_path +:+ "/" +:+ name)
               (List.filter is_log_name names)
  | None => []
  end.

(** ** The methods of [LogAnalyzer] *)

(** [stats["startup_events"].append(ev)] *)
Definition add_startup (ev : Event) (stats : Stats) : Stats :=
  {| startup_events := startup_events stats ++ [ev];
     stop_events := stop_events stats;
     message_counts := message_counts stats |}.

(** [stats["stop_events"].append(ev)] *)
Definition add_stop (ev : Event) (stats : Stats) : Stats :=
  {| startup_events := startup_events stats;
     stop_events := stop_events stats ++ [ev];
     message_counts := message_counts stats |}.

(** [stats["message_counts"][msg] += 1] *)
Definition add_count (msg : string) (stats : Stats) : Stats :=
  {| startup_events := startup_events stats;
     stop_events := stop_events stats;
     message_counts := incr msg (message_counts stats) |}.

(** The [timestamp] local of [_process_log_line]. *)
Definition timestamp_of (text : string) : string :=
  match Re.search time_pattern text with
  | Some m => m
  | None => unknown_time
  end.

(** The loop over [self.search_list] that ends [_process_log_line]. *)
Definition count_search_terms (search_list : list string) (text : string)
    (stats : Stats) : Stats :=
  fold_left
    (fun st msg => if Str.contains msg text then add_count msg st else st)
    search_list stats.

Definition _process_log_line (self : LogAnalyzer) (text log_file : string)
    (stats : Stats) : Stats :=
  let ev := {| timestamp := timestamp_of text;
               file := Str.basename log_file;
               line := Str.strip text |} in
  let stats :=
    if Str.contains (startup_msg self) text then add_startup ev stats
    else stats in
  let stats :=
    if Str.contains (stop_msg self) text then add_stop ev stats
    else stats in
  count_search_terms (search_list self) text stats.

(** [for line in file: self._process_log_line(line, log_file, stats)] *)
Definition process_lines (self : LogAnalyzer) (log_file : string)
    (lines : list string) (stats : Stats) : Stats :=
  fold_left (fun st l => _process_log_line self l log_file st) lines stats.

Definition _process_log_file (self : LogAnalyzer) (fs : FileSystem)
    (log_file : string) (stats : Stats) : Stats :=
  match read_from fs log_file 0 with
  | Some (ReadToEnd lines) | Some (ReadInterrupted lines) =>
      process_lines self log_file lines stats
  | None => stats
  end.

(** [parse_logs] returns its result and the analyzer it leaves behind. *)
Definition parse_logs (self : LogAnalyzer) (fs : FileSystem)
    : option Stats * LogAnalyzer :=
  let log_files := glob_logs fs (directory_path self) in
  match log_files with
  | [] => (None, self)
  | _ =>
      (Some (fold_left
               (fun st log_file => _process_log_file self fs log_file st)
               log_files empty_stats),
       self)
  end.

(** The state of the loop of [parse_new_logs_only]: the statistics, the
    flag [new_entries_found] and the analyzer. *)
Record ScanAcc : Type := mkScanAcc {
  acc_stats : Stats;
  new_entries_found : bool;
  acc_self : LogAnalyzer
}.

(** One iteration of [for log_file in log_files] in [parse_new_logs_only].
    After the file was read to its end, [file.tell()] is its size. *)
Definition scan_new (fs : FileSystem) (acc : ScanAcc) (log_file : string)
    : ScanAcc :=
  match st_size fs log_file with
  | None => acc
  | Some file_size =>
      let self := acc_self acc in
      let last_position := position_of self log_file in
      if last_position <? file_size then
        match read_from fs log_file last_position with
        | Some (ReadToEnd lines) =>
            {| acc_stats := process_lines self log_file lines (acc_stats acc);
               new_entries_found := true;
               acc_self :=
                 set_file_positions self
                   (<[log_file := file_size]> (file_positions self)) |}
        | Some (ReadInterrupted lines) =>
            {| acc_stats := process_lines self log_file lines (acc_stats acc);
               new_entries_found := true;
               acc_self := self |}
        | None =>
            {| acc_stats := acc_stats acc;
               new_entries_found := true;
               acc_self := self |}
        end
      else acc
  end.

Definition parse_new_logs_only (self : LogAnalyzer) (fs : FileSystem)
    : option Stats * LogAnalyzer :=
  let log_files := glob_logs fs (directory_path self) in
  match log_files with
  | [] => (None, self)
  | _ =>
      let acc :=
        fold_left (scan_new fs) log_files
          {| acc_stats := empty_stats;
             new_entries_found := false;
             acc_self := self |} in
      (if new_entries_found acc then Some (acc_stats acc) else None,
       acc_self acc)
  end.

(** ** The monitoring loop *)

(** What the loop does that an observer sees. *)
Inductive Output : Type :=
| Summarize (stats : Stats)
| NewEventsDetected
| NoNewEventsDetected.

(** [generate_ai_summary(stats)] for a statistics dictionary, which has
    three keys and so is never falsy: the prompt built from [stats] goes to
    the model. *)
Definition generate_ai_summary (stats : Stats) : list Output :=
  [Summarize stats].

(** [any([startup_events, stop_events, message_counts])] *)
Definition any_new (stats : Stats) : bool :=
  bool_decide (startup_events stats ≠ [])
  || bool_decide (stop_events stats ≠ [])
  || bool_decide (message_counts stats ≠ ∅).

(** The body of [while True] up to [time.sleep], run on the file system
    [fs] of that moment. *)
Definition monitor_tick (self : LogAnalyzer) (fs : FileSystem)
    : list Output * LogAnalyzer :=
  let '(new_data, self') := parse_new_logs_only self fs in
  match new_data with
  | Some stats =>
      if any_new stats
      then (NewEventsDetected :: generate_ai_summary stats, self')
      else ([NoNewEventsDetected], self')
  | None => ([NoNewEventsDetected], self')
  end.

(** The loop, run on the file systems found at the successive scans; the
    list ends where [KeyboardInterrupt] stops the loop. *)
Fixpoint monitor_loop (self : LogAnalyzer) (ticks : list FileSystem)
    : list Output * LogAnalyzer :=
  match ticks with
  | [] => ([], self)
  | fs :: ticks' =>
      let '(out, self') := monitor_tick self fs in
      let '(outs, self'') := monitor_loop self' ticks' in
      (out ++ outs, self'')
  end.

(** [run_continuous_monitoring]: the initial scan on [fs0], then the loop. *)
Definition run_continuous_monitoring (self : LogAnalyzer) (fs0 : FileSystem)
    (ticks : list FileSystem) : list Output * LogAnalyzer :=
  let '(initial_data, self') := parse_logs self fs0 in
  let out0 :=
    match initial_data with
    | Some stats => generate_ai_summary stats
    | None => []
    end in
  let '(outs, self'') := monitor_loop self' ticks in
  (out0 ++ outs, self'').

(** ** Notions the properties are stated with *)

(** [sub] occurs in [s] as a literal substring. *)
Definition is_substring (sub s : string) : Prop :=
  ∃ pre post, s = pre +:+ sub +:+ post.


(** How many times [msg] is listed in [search_list]. *)
Definition multiplicity (msg : string) (search_list : list string) : nat :=
  length (filter (λ k, k = msg) search_list).

(** The event [_process_log_line] builds for a line of [log_file]. *)
Definition event_of (text log_file : string) : Event :=
  {| timestamp := timestamp_of text;
     file := Str.basename log_file;
     line := Str.strip text |}.

(** The ten decimal digits. *)
Definition decimal_digits : list ascii :=
  ["0"; "1"; "2"; "3"; "4"; "5"; "6"; "7"; "8"; "9"]%char.

(** [s] consists of decimal digits only. *)
Fixpoint all_digits (s : string) : Prop :=
  match s with
  | EmptyString => True
  | String c s' => c ∈ decimal_digits ∧ all_digits s'
  end.

(** [s] is a group of [n] decimal digits. *)
Definition digit_group (n : nat) (s : string) : Prop :=
  String.length s = n ∧ all_digits s.

(** Two digits, a hyphen, two digits, a hyphen, four digits, a space and
    three colon-separated groups of two digits; no range is asked of any
    group. *)
Definition timestamp_shape (ts : string) : Prop :=
  ∃ dd mm yyyy hh mi ss,
    digit_group 2 dd ∧ digit_group 2 mm ∧ digit_group 4 yyyy ∧
    digit_group 2 hh ∧ digit_group 2 mi ∧ digit_group 2 ss ∧
    ts = dd +:+ "-" +:+ mm +:+ "-" +:+ yyyy +:+ " "
         +:+ hh +:+ ":" +:+ mi +:+ ":" +:+ ss.

(** [m] is matched, character by character, by the items of [p]. *)
Fixpoint matched_by (p : list Re.item) (m : string) : Prop :=
  match p, m with
  | [], EmptyString => True
  | i :: p', String c m' => Re.item_matches i c = true ∧ matched_by p' m'
  | _, _ => False
  end.

(** The accumulator [parse_new_logs_only] enters its loop with. *)
Definition scan_start (self : LogAnalyzer) : ScanAcc :=
  {| acc_stats := empty_stats; new_entries_found := false; acc_self := self |}.

(** [f] can be opened and read to its end. *)
Definition reads_through (f : File) : Prop :=
  readable f = true ∧ read_fails_after f = None.

(** The file behind [p] is larger than the position recorded for it. *)
Definition has_new_bytes (fs : FileSystem) (self : LogAnalyzer) (p : string)
    : Prop :=
  ∃ size, st_size fs p = Some size ∧ position_of self p < size.

(** The lines that reading [p] from byte [pos] hands over before it fails,
    none when it is [open] that fails; [None] when nothing fails. *)
Definition lines_before_failure (fs : FileSystem) (p : string) (pos : nat)
    : option (list string) :=
  match read_from fs p pos with
  | None => Some []
  | Some (ReadInterrupted lines) => Some lines
  | Some (ReadToEnd _) => None
  end.

(** ** Concrete inputs *)

Definition newline : string := String "010"%char "".

(** An analyzer as the examples of the repository set one up. *)
Definition demo_analyzer : LogAnalyzer :=
  init "logs" "started" "stopped" ["ERROR"; "WARNING"] 60.

(** The same analyzer after it read 100 bytes of [logs/app.log]. *)
Definition ahead_analyzer : LogAnalyzer :=
  set_file_positions demo_analyzer {[ "logs/app.log" := 100 ]}.

(** A line with two well-shaped timestamps, the first out of every range. *)
Definition two_timestamps : string :=
  "x 99-99-9999 99:99:99 up 01-01-2024 10:00:00".

(** A startup line whose first timestamp is out of every range and is
    followed by a well-formed one. *)
Definition unranged_start : string :=
  "x 99-99-9999 99:99:99 started 01-01-2024 10:00:00" +:+ newline.

(** A startup line without a timestamp. *)
Definition undated_start : string := "service started" +:+ newline.

(** A line that holds both patterns, and one keyword twice. *)
Definition busy_line : string :=
  "01-01-2024 10:00:00 started ERROR then ERROR and stopped" +:+ newline.

(** A file that opens and reads without error. *)
Definition sound_file (text : string) : File :=
  {| readable := true; read_fails_after := None; content := text |}.

(** A file that [open] refuses. *)
Definition locked_file (text : string) : File :=
  {| readable := false; read_fails_after := None; content := text |}.

(** A file that opens and fails once [k] lines were read. *)
Definition flaky_file (k : nat) (text : string) : File :=
  {| readable := true; read_fails_after := Some k; content := text |}.

(** The directory [logs] holding the one log file [app.log]. *)
Definition logs_with (f : File) : FileSystem :=
  {| listing := {[ "logs" := ["app.log"; "notes.txt"] ]};
     nodes := {[ "logs/app.log" := f ]} |}.

(** A log file of two lines, 64 bytes. *)
Definition demo_fs : FileSystem :=
  logs_with (sound_file
    ("01-01-2024 10:00:00 started" +:+ newline +:+
     "01-01-2024 10:05:00 ERROR disk full" +:+ newline)).

(** A log file of 16 bytes; [ahead_analyzer] stands at byte 100 of it. *)
Definition shrunk_fs : FileSystem := logs_with (sound_file undated_start).

(** A log file with bytes to read that cannot be opened. *)
Definition locked_fs : FileSystem := logs_with (locked_file undated_start).

(** A log file whose reading fails after its first line, a startup line. *)
Definition flaky_fs : FileSystem :=
  logs_with (flaky_file 1 (undated_start +:+ "more" +:+ newline)).

(** A log file whose bytes match nothing the analyzer looks for. *)
Definition quiet_fs : FileSystem :=
  logs_with (sound_file ("all is well" +:+ newline)).

(** No directory at all. *)
Definition missing_dir_fs : FileSystem :=
  {| listing := ∅; nodes := ∅ |}.

(** A directory that exists and holds no log file. *)
Definition empty_dir_fs : FileSystem :=
  {| listing := {[ "logs" := ["notes.txt"] ]};
     nodes := {[ "logs/notes.txt" := sound_file "started" ]} |}.

(** ** Notions for the scans as a whole *)

(** The lines [_process_log_file] gets out of [log_file]: those read before
    an error, none when the file cannot be opened. *)
Definition lines_of (fs : FileSystem) (log_file : string) : list string :=
  match read_from fs log_file 0 with
  | Some (ReadToEnd lines) | Some (ReadInterrupted lines) => lines
  | None => []
  end.

(** The events of the lines of [log_file] that hold [pattern], in the order
    of the lines. *)
Definition events_in (pattern log_file : string) (lines : list string)
    : list Event :=
  List.map (fun l => event_of l log_file)
           (List.filter (Str.contains pattern) lines).

(** How many of the lines hold [msg]. *)
Definition lines_with (msg : string) (lines : list string) : nat :=
  length (List.filter (Str.contains msg) lines).

(** Two analyzers look for the same patterns. *)
Definition same_patterns (self self' : LogAnalyzer) : Prop :=
  startup_msg self = startup_msg self'
  ∧ stop_msg self = stop_msg self'
  ∧ search_list self = search_list self'.

(** Every key of the counter is one of [terms] and has a count above 0. *)
Definition counts_ok (terms : list string) (c : gmap string nat) : Prop :=
  ∀ k n, c !! k = Some n → 0 < n ∧ k ∈ terms.

(** All lines a full scan reads, file after file. *)
Definition all_lines (fs : FileSystem) (files : list string) : list string :=
  flat_map (lines_of fs) files.

(** [s] neither starts nor ends with a whitespace character. *)
Definition trimmed (s : string) : Prop :=
  (∀ c s', s = String c s' → Str.isspace c = false)
  ∧ (∀ s' c, s = s' +:+ String c "" → Str.isspace c = false).

(** An event as the scans record them: a timestamp of the timestamp shape
    or the stand-in for a missing one, a file name without directory part,
    and a line without surrounding whitespace. *)
Definition well_formed_event (ev : Event) : Prop :=
  (timestamp_shape (timestamp ev) ∨ timestamp ev = unknown_time)
  ∧ Str.contains "/" (file ev) = false
  ∧ trimmed (line ev).

(** The analyzer after it read all of the first line of the file of
    [demo_fs], 28 bytes. *)
Definition midway_analyzer : LogAnalyzer :=
  set_file_positions demo_analyzer {[ "logs/app.log" := 28 ]}.

(** ** The configuration class, [config.py] *)

Module Config.

Record LogAnalyzerConfig : Type := mkLogAnalyzerConfig {
  log_directory : string;
  startup_message : string;
  shutdown_message : string;
  search_patterns : list string;
  llm_model : string;
  monitor_interval : nat
}.

(** The dataclass constructor followed by [__post_init__], which replaces a
    [search_patterns] of [None] by the default patterns. *)
Definition new (log_directory startup_message shutdown_message : string)
    (search_patterns : option (list string)) (llm_model : string)
    (monitor_interval : nat) : LogAnalyzerConfig :=
  {| log_directory := log_directory;
     startup_message := startup_message;
     shutdown_message := shutdown_message;
     search_patterns :=
       match search_patterns with
       | Some l => l
       | None =>
           ["ERROR"; "WARNING"; "CRITICAL"; "timeout"; "failed"; "exception"]
       end;
     llm_model := llm_model;
     monitor_interval := monitor_interval |}.

(** [Configurations.web_server_config()] *)
Definition web_server_config : LogAnalyzerConfig :=
  new "." "server started" "server stopped"
    (Some ["ERROR"; "500"; "404"; "timeout"; "connection refused";
           "Internal Server Error"])
    "llama2" 60.

(** [Configurations.database_config()] *)
Definition database_config : LogAnalyzerConfig :=
  new "." "database initialized" "database shutdown"
    (Some ["ERROR"; "deadlock"; "connection timeout"; "out of memory";
           "table lock"; "query timeout"])
    "llama2" 60.

(** [Configurations.application_config()] *)
Definition application_config : LogAnalyzerConfig :=
  new "." "application started" "application stopped"
    (Some ["ERROR"; "CRITICAL"; "OutOfMemoryError"; "NullPointerException";
           "retry"; "failed"])
    "llama2" 60.

(** [Configurations.system_config()] *)
Definition system_config : LogAnalyzerConfig :=
  new "." "system initialized" "system shutdown"
    (Some ["ERROR"; "CRITICAL"; "disk full"; "memory exhausted";
           "network unreachable"; "service unavailable"])
    "llama2" 60.

End Config.

(** ** The command line, [cli.py] *)

Module Cli.

(** The choices of [--preset]. *)
Inductive Preset : Type :=
| web
| database
| application
| system.

(** The namespace [parse_args] returns; [interval] is taken not to be
    negative. *)
Record Args : Type := mkArgs {
  directory : string;
  startup_msg : string;
  stop_msg : string;
  search_terms : list string;
  model : string;
  no_summary : bool;
  preset : option Preset;
  continuous : bool;
  interval : nat
}.

(** The [config] that [main] picks for a preset. *)
Definition preset_config (p : Preset) : Config.LogAnalyzerConfig :=
  match p with
  | web => Config.web_server_config
  | database => Config.database_config
  | application => Config.application_config
  | system => Config.system_config
  end.

(** The [analyzer] that [main] builds. *)
Definition analyzer_of (args : Args) : LogAnalyzer :=
  match preset args with
  | Some p =>
      let config := preset_config p in
      init (directory args) (Config.startup_message config)
           (Config.shutdown_message config) (Config.search_patterns config)
           (interval args)
  | None =>
      init (directory args) (startup_msg args) (stop_msg args)
           (search_terms args) (interval args)
  end.

End Cli.

(** A command line with a preset and patterns of its own. *)
Definition demo_args : Cli.Args :=
  {| Cli.directory := "logs";
     Cli.startup_msg := "started";
     Cli.stop_msg := "stopped";
     Cli.search_terms := ["ERROR"; "ERROR"];
     Cli.model := "mistral";
     Cli.no_summary := true;
     Cli.preset := Some Cli.system;
     Cli.continuous := true;
     Cli.interval := 30 |}.

(** A log file for the system preset. *)
Definition system_fs : FileSystem :=
  logs_with (sound_file
    ("01-01-2024 10:00:00 system initialized" +:+ newline +:+
     "01-01-2024 10:05:00 ERROR disk full, ERROR" +:+ newline +:+
     "01-01-2024 10:06:00 disk full" +:+ newline)).
(** * Properties *)

(** ** Substrings *)

Lemma app_empty_l (s : string) : "" +:+ s = s.
Proof. reflexivity. Qed.

Lemma app_cons (a : ascii) (s t : string) :
  String a s +:+ t = String a (s +:+ t).
Proof. reflexivity. Qed.

Lemma startswith_spec (p s : string) :
  Str.startswith p s = true ↔ ∃ post, s = p +:+ post.
Proof.
  revert s. induction p as [|a p IH]; intros s; simpl.
  - split; [intros _; by exists s | done].
  - destruct s as [|b s].
    + split; [done | intros [post H]; by rewrite app_cons in H].
    + rewrite andb_true_iff, Ascii.eqb_eq, IH. split.
      * intros [-> [post ->]]. by exists post.
      * intros [post H]. rewrite app_cons in H. injection H as -> ->. eauto.
Qed.

Lemma contains_spec (sub s : string) :
  Str.contains sub s = true ↔ is_substring sub s.
Proof.
  unfold is_substring. induction s as [|c s IH]; simpl.
  - rewrite orb_false_r, startswith_spec. split.
    + intros [post H]. by exists "", post.
    + intros [[|a pre] [post H]]; [by exists post | by rewrite app_cons in H].
  - rewrite orb_true_iff, startswith_spec, IH. split.
    + intros [[post H] | (pre & post & H)].
      * by exists "", post.
      * exists (String c pre), post. by rewrite app_cons, H.
    + intros [[|a pre] [post H]].
      * left. by exists post.
      * right. rewrite app_cons in H. injection H as -> ->. eauto.
Qed.

Lemma not_contains_spec (sub s : string) :
  Str.contains sub s = false ↔ ¬ is_substring sub s.
Proof. rewrite <- contains_spec. by destruct (Str.contains sub s). Qed.

(** ** Classification of one line *)

Lemma count_incr_eq (msg : string) (c : gmap string nat) :
  count (incr msg c) msg = S (count c msg).
Proof. unfold count, incr. by rewrite lookup_insert_eq. Qed.

Lemma count_incr_ne (msg k : string) (c : gmap string nat) :
  msg ≠ k → count (incr msg c) k = count c k.
Proof. intros Hne. unfold count, incr. by rewrite lookup_insert_ne. Qed.

Lemma count_search_terms_events (l : list string) (text : string)
    (stats : Stats) :
  startup_events (count_search_terms l text stats) = startup_events stats
  ∧ stop_events (count_search_terms l text stats) = stop_events stats.
Proof.
  unfold count_search_terms. revert stats.
  induction l as [|k l IH]; intros stats; simpl; [done|].
  destruct (IH (if Str.contains k text then add_count k stats else stats))
    as [-> ->].
  by destruct (Str.contains k text).
Qed.

(** A keyword listed [n] times is counted [n] times for each line that
    holds it; other lines leave its count alone. *)
Lemma count_search_terms_count (l : list string) (text msg : string)
    (stats : Stats) :
  count (message_counts (count_search_terms l text stats)) msg
  = count (message_counts stats) msg
    + (if Str.contains msg text then multiplicity msg l else 0).
Proof.
  unfold count_search_terms, multiplicity. revert stats.
  induction l as [|k l IH]; intros stats; simpl.
  - destruct (Str.contains msg text); simpl; lia.
  - rewrite IH. rewrite filter_cons. destruct (decide (k = msg)) as [->|Hne].
    + destruct (Str.contains msg text); simpl; [|lia].
      rewrite count_incr_eq. lia.
    + destruct (Str.contains k text); simpl; [|done].
      by rewrite count_incr_ne.
Qed.

Lemma multiplicity_not_elem (msg : string) (l : list string) :
  msg ∉ l → multiplicity msg l = 0.
Proof.
  unfold multiplicity. induction l as [|k l IH]; intros Hnot; [done|].
  apply not_elem_of_cons in Hnot as [Hne Hnot].
  rewrite filter_cons, decide_False by done. auto.
Qed.

Lemma multiplicity_NoDup (msg : string) (l : list string) :
  NoDup l → msg ∈ l → multiplicity msg l = 1.
Proof.
  induction 1 as [|k l Hk Hl IH]; intros Hin.
  - by apply elem_of_nil in Hin.
  - unfold multiplicity. rewrite filter_cons.
    destruct (decide (k = msg)) as [->|Hne].
    + simpl. f_equal. by apply multiplicity_not_elem.
    + apply elem_of_cons in Hin as [->|Hin]; [done|]. by apply IH.
Qed.

(** C6. For every line and every duplicate-free keyword list,
    [_process_log_line] appends the line's event to the startup events
    exactly when the startup pattern is a literal substring of the line, and
    to the stop events exactly when the stop pattern is one, each test
    independent of the other; and it raises the count of a listed keyword by
    exactly 1 when the keyword is a substring of the line, however often it
    occurs there, and leaves the count as it was otherwise. *)
Theorem process_log_line_classifies (self : LogAnalyzer)
    (text log_file : string) (stats : Stats) :
  NoDup (search_list self) →
  let stats' := _process_log_line self text log_file stats in
  let ev := event_of text log_file in
  (is_substring (startup_msg self) text →
     startup_events stats' = startup_events stats ++ [ev])
  ∧ (¬ is_substring (startup_msg self) text →
     startup_events stats' = startup_events stats)
  ∧ (is_substring (stop_msg self) text →
     stop_events stats' = stop_events stats ++ [ev])
  ∧ (¬ is_substring (stop_msg self) text →
     stop_events stats' = stop_events stats)
  ∧ (∀ msg, msg ∈ search_list self →
       (is_substring msg text →
          count (message_counts stats') msg
          = S (count (message_counts stats) msg))
       ∧ (¬ is_substring msg text →
          count (message_counts stats') msg
          = count (message_counts stats) msg)).
Proof.
  intros Hnodup stats' ev. subst stats' ev.
  unfold _process_log_line, event_of.
  set (ev := {| timestamp := timestamp_of text; file := Str.basename log_file;
                line := Str.strip text |}).
  set (s1 := if Str.contains (startup_msg self) text
             then add_startup ev stats else stats).
  set (s2 := if Str.contains (stop_msg self) text
             then add_stop ev s1 else s1).
  destruct (count_search_terms_events (search_list self) text s2) as [Hst Hsp].
  rewrite Hst, Hsp.
  assert (Hs2 : message_counts s2 = message_counts stats).
  { subst s2 s1.
    by destruct (Str.contains (stop_msg self) text),
                (Str.contains (startup_msg self) text). }
  split; [|split; [|split; [|split; [|intros msg Hin; split]]]].
  - intros H%contains_spec. subst s2 s1. rewrite H.
    by destruct (Str.contains (stop_msg self) text).
  - intros H%not_contains_spec. subst s2 s1. rewrite H.
    by destruct (Str.contains (stop_msg self) text).
  - intros H%contains_spec. subst s2 s1. rewrite H.
    by destruct (Str.contains (startup_msg self) text).
  - intros H%not_contains_spec. subst s2 s1. rewrite H.
    by destruct (Str.contains (startup_msg self) text).
  - intros H%contains_spec.
    rewrite count_search_terms_count, H, Hs2, multiplicity_NoDup by done. lia.
  - intros H%not_contains_spec.
    rewrite count_search_terms_count, H, Hs2. lia.
Qed.

Lemma process_log_line_classifies_witness :
  NoDup (search_list demo_analyzer)
  ∧ startup_events
      (_process_log_line demo_analyzer busy_line "logs/app.log" empty_stats)
    = [event_of busy_line "logs/app.log"]
  ∧ stop_events
      (_process_log_line demo_analyzer busy_line "logs/app.log" empty_stats)
    = [event_of busy_line "logs/app.log"]
  ∧ count (message_counts
      (_process_log_line demo_analyzer busy_line "logs/app.log" empty_stats))
      "ERROR" = 1
  ∧ count (message_counts
      (_process_log_line demo_analyzer busy_line "logs/app.log" empty_stats))
      "WARNING" = 0.
Proof.
  assert (Hnodup : NoDup (search_list demo_analyzer)).
  { apply (bool_decide_unpack _). by vm_compute. }
  destruct (process_log_line_classifies demo_analyzer busy_line
              "logs/app.log" empty_stats Hnodup)
    as (Hstart & _ & Hstop & _ & Hcount).
  split_and!; [done| | | |].
  - apply Hstart. apply contains_spec. reflexivity.
  - apply Hstop. apply contains_spec. reflexivity.
  - apply (Hcount "ERROR"); [by vm_compute; left|].
    apply contains_spec. reflexivity.
  - apply (Hcount "WARNING"); [by vm_compute; right; left|].
    apply not_contains_spec. reflexivity.
Defined.

(** A keyword listed twice is counted twice for a line that holds it. *)
Lemma listed_twice_counts_twice :
  count (message_counts
    (count_search_terms ["ERROR"; "ERROR"] busy_line empty_stats)) "ERROR" = 2.
Proof. by vm_compute. Qed.

(** The substring test tells upper case from lower case. *)
Lemma contains_case_sensitive :
  Str.contains "started" "Service Started" = false
  ∧ Str.contains "started" "service started" = true.
Proof. by vm_compute. Qed.

(** ** Timestamp extraction *)

Lemma isdigit_spec (c : ascii) :
  Re.isdigit c = true ↔ c ∈ decimal_digits.
Proof.
  rewrite <- (bool_decide_eq_true (c ∈ decimal_digits)).
  assert (Re.isdigit c = bool_decide (c ∈ decimal_digits)) as ->; [|done].
  by destruct c as [[] [] [] [] [] [] [] []]; vm_compute.
Qed.

Lemma match_here_spec (p : list Re.item) (s m : string) :
  Re.match_here p s = Some m ↔ ∃ post, s = m +:+ post ∧ matched_by p m.
Proof.
  revert s m. induction p as [|i p IH]; intros s m; simpl.
  - split.
    + intros [= <-]. by exists s.
    + intros [post [_ Hm]]. by destruct m.
  - destruct s as [|c s].
    + split; [done|]. intros [post [H Hm]]. by destruct m.
    + destruct (Re.item_matches i c) eqn:Hi.
      * destruct (Re.match_here p s) as [m0|] eqn:Hp.
        -- apply IH in Hp as [post [-> Hm0]]. split.
           ++ intros [= <-]. by exists post.
           ++ intros [post' [H Hm]]. destruct m as [|c' m]; [done|].
              rewrite app_cons in H. injection H as <- H.
              destruct Hm as [_ Hm].
              assert (Re.match_here p (m0 +:+ post) = Some m) as Hm'.
              { apply IH. rewrite H. eauto. }
              assert (Re.match_here p (m0 +:+ post) = Some m0) as Hm0'.
              { apply IH. eauto. }
              congruence.
        -- split; [done|]. intros [post [H Hm]].
           destruct m as [|c' m]; [done|].
           rewrite app_cons in H. injection H as <- ->.
           destruct Hm as [_ Hm].
           assert (Re.match_here p (m +:+ post) = Some m) as Hm'.
           { apply IH. eauto. }
           congruence.
      * split; [done|]. intros [post [H Hm]].
        destruct m as [|c' m]; [done|].
        rewrite app_cons in H. injection H as <- ->.
        destruct Hm as [Hc _]. congruence.
Qed.

(** [search] returns the leftmost substring the pattern matches. *)
Lemma search_spec (p : list Re.item) (s m : string) :
  Re.search p s = Some m ↔
  ∃ pre post,
    s = pre +:+ m +:+ post ∧ matched_by p m ∧
    ∀ pre' m' post',
      s = pre' +:+ m' +:+ post' → matched_by p m' →
      String.length pre ≤ String.length pre'.
Proof.
  revert m. induction s as [|c s IH]; intros m.
  - simpl. destruct (Re.match_here p "") as [m0|] eqn:H0.
    + apply match_here_spec in H0 as [post0 [H0 Hm0]]. split.
      * intros [= <-]. exists "", post0. split_and!; [done..|]. simpl. lia.
      * intros (pre & post & H & Hm & _).
        destruct pre; [|done]. rewrite app_empty_l in H.
        destruct m; [|done]. by destruct m0.
    + split; [done|]. intros (pre & post & H & Hm & _).
      destruct pre; [|done]. rewrite app_empty_l in H.
      assert (Re.match_here p "" = Some m) as Hm'.
      { apply match_here_spec. eauto. }
      congruence.
  - cbn [Re.search].
    destruct (Re.match_here p (String c s)) as [m0|] eqn:H0.
    + pose proof H0 as H0'.
      apply match_here_spec in H0 as [post0 [H0 Hm0]]. split.
      * intros [= <-]. exists "", post0. split_and!; [done..|]. simpl. lia.
      * intros (pre & post & H & Hm & Hleft).
        specialize (Hleft "" m0 post0 H0 Hm0).
        destruct pre; [|simpl in Hleft; lia].
        rewrite app_empty_l in H.
        assert (Re.match_here p (String c s) = Some m) as Hm'.
        { apply match_here_spec. eauto. }
        congruence.
    + rewrite IH. split.
      * intros (pre & post & -> & Hm & Hleft).
        exists (String c pre), post. split_and!; [done..|].
        intros [|c' pre'] m' post' H Hm'.
        -- assert (Re.match_here p (String c (pre +:+ m +:+ post)) = Some m')
             as Hm''.
           { apply match_here_spec. eauto. }
           congruence.
        -- rewrite app_cons in H. injection H as <- H.
           specialize (Hleft pre' m' post' H Hm'). simpl. lia.
      * intros ([|c' pre] & post & H & Hm & Hleft).
        -- assert (Re.match_here p (String c s) = Some m) as Hm'.
           { apply match_here_spec. eauto. }
           congruence.
        -- rewrite app_cons in H. injection H as <- ->.
           exists pre, post. split_and!; [done..|].
           intros pre' m' post' H Hm'.
           specialize (Hleft (String c pre') m' post').
           rewrite app_cons, <- H in Hleft.
           specialize (Hleft eq_refl Hm'). simpl in Hleft. lia.
Qed.

Lemma digit_group_2 (s : string) :
  digit_group 2 s ↔
  ∃ a b, s = String a (String b "") ∧
         a ∈ decimal_digits ∧ b ∈ decimal_digits.
Proof.
  unfold digit_group. split.
  - intros [Hlen Hd]. destruct s as [|a [|b [|c s]]]; try done.
    destruct Hd as (Ha & Hb & _). eauto.
  - intros (a & b & -> & Ha & Hb). by repeat split.
Qed.

Lemma digit_group_4 (s : string) :
  digit_group 4 s ↔
  ∃ a b c d, s = String a (String b (String c (String d ""))) ∧
             a ∈ decimal_digits ∧ b ∈ decimal_digits ∧
             c ∈ decimal_digits ∧ d ∈ decimal_digits.
Proof.
  unfold digit_group. split.
  - intros [Hlen Hd]. destruct s as [|a [|b [|c [|d [|e s]]]]]; try done.
    destruct Hd as (Ha & Hb & Hc & Hd & _). eauto 10.
  - intros (a & b & c & d & -> & Ha & Hb & Hc & Hd). by repeat split.
Qed.

(** The compiled pattern matches exactly the strings of the timestamp
    shape. *)
Lemma time_pattern_shape (ts : string) :
  matched_by time_pattern ts ↔ timestamp_shape ts.
Proof.
  unfold timestamp_shape. split.
  - intros H.
    do 19 (destruct ts as [|? ts]; [by repeat destruct H as [_ H]|]).
    destruct ts; [|by repeat destruct H as [_ H]].
    unfold time_pattern in H. cbn [matched_by Re.item_matches] in H.
    repeat match goal with
    | H : _ ∧ _ |- _ => destruct H
    | H : Re.isdigit _ = true |- _ => apply isdigit_spec in H
    | H : Ascii.eqb _ _ = true |- _ => apply Ascii.eqb_eq in H; subst
    end.
    eexists (String _ (String _ "")), (String _ (String _ "")),
            (String _ (String _ (String _ (String _ "")))),
            (String _ (String _ "")), (String _ (String _ "")),
            (String _ (String _ "")).
    split_and!; [| | | | | |reflexivity];
      (apply digit_group_2 || apply digit_group_4); eauto 10.
  - intros (dd & mm & yyyy & hh & mi & ss & Hdd & Hmm & Hyyyy & Hhh & Hmi
            & Hss & ->).
    apply digit_group_2 in Hdd as (? & ? & -> & ? & ?).
    apply digit_group_2 in Hmm as (? & ? & -> & ? & ?).
    apply digit_group_4 in Hyyyy as (? & ? & ? & ? & -> & ? & ? & ? & ?).
    apply digit_group_2 in Hhh as (? & ? & -> & ? & ?).
    apply digit_group_2 in Hmi as (? & ? & -> & ? & ?).
    apply digit_group_2 in Hss as (? & ? & -> & ? & ?).
    repeat (rewrite app_cons || rewrite app_empty_l).
    unfold time_pattern. cbn [matched_by Re.item_matches].
    rewrite <- !isdigit_spec in *. by split_and!.
Qed.

(** [time_pattern.search] returns [ts] exactly when [ts] is a substring of
    the timestamp shape and no substring of that shape starts further
    left. *)
Lemma time_pattern_search_iff (text ts : string) :
  Re.search time_pattern text = Some ts ↔
  ∃ pre post,
    text = pre +:+ ts +:+ post ∧ timestamp_shape ts ∧
    ∀ pre' ts' post',
      text = pre' +:+ ts' +:+ post' → timestamp_shape ts' →
      String.length pre ≤ String.length pre'.
Proof.
  rewrite search_spec. split.
  - intros (pre & post & H & Hm & Hleft). exists pre, post.
    split_and!; [done|by apply time_pattern_shape|].
    intros pre' ts' post' H' Hs'. apply (Hleft pre' ts' post' H').
    by apply time_pattern_shape.
  - intros (pre & post & H & Hs & Hleft). exists pre, post.
    split_and!; [done|by apply time_pattern_shape|].
    intros pre' ts' post' H' Hm'. apply (Hleft pre' ts' post' H').
    by apply time_pattern_shape.
Qed.

Lemma shape_99 : timestamp_shape "99-99-9999 99:99:99".
Proof.
  exists "99", "99", "9999", "99", "99", "99".
  split_and!; try reflexivity; (split; [reflexivity|]); simpl;
    split_and!; try done; by apply isdigit_spec.
Qed.

Lemma timestamp_of_two_timestamps :
  timestamp_of two_timestamps = "99-99-9999 99:99:99".
Proof. reflexivity. Qed.

(** ** The timestamp of a line without one *)

(** What [_process_log_line] appends to the two event lists. *)
Lemma process_log_line_events (self : LogAnalyzer) (text log_file : string)
    (stats : Stats) :
  let stats' := _process_log_line self text log_file stats in
  startup_events stats'
  = startup_events stats
    ++ (if Str.contains (startup_msg self) text
        then [event_of text log_file] else [])
  ∧ stop_events stats'
    = stop_events stats
      ++ (if Str.contains (stop_msg self) text
          then [event_of text log_file] else []).
Proof.
  unfold _process_log_line, event_of. simpl.
  match goal with
  | |- context [count_search_terms ?l ?t ?s] =>
      destruct (count_search_terms_events l t s) as [-> ->]
  end.
  destruct (Str.contains (startup_msg self) text),
           (Str.contains (stop_msg self) text); simpl;
    by rewrite ?app_nil_r.
Qed.

(** C10. The timestamp of a line is found on the shape of the digits
    alone. When [ts] is a substring of the line made of two digits, a
    hyphen, two digits, a hyphen, four digits, a space and three
    colon-separated groups of two digits, whatever the numbers are, and no
    substring of that shape starts further left, then [time_pattern.search]
    returns [ts], [ts] is the [timestamp] that [_process_log_line] takes
    for the line, and the startup event and the stop event that
    [_process_log_line] records for the line carry [ts]. Characters are
    the code points below 256, among which the digits are ["0"] to
    ["9"]. *)
Theorem first_shape_match_is_the_timestamp (self : LogAnalyzer)
    (text log_file : string) (stats : Stats) (pre ts post : string) :
  text = pre +:+ ts +:+ post →
  timestamp_shape ts →
  (∀ pre' ts' post',
     text = pre' +:+ ts' +:+ post' → timestamp_shape ts' →
     String.length pre ≤ String.length pre') →
  let stats' := _process_log_line self text log_file stats in
  Re.search time_pattern text = Some ts
  ∧ timestamp_of text = ts
  ∧ (is_substring (startup_msg self) text →
     ∃ ev, startup_events stats' = startup_events stats ++ [ev]
           ∧ timestamp ev = ts)
  ∧ (is_substring (stop_msg self) text →
     ∃ ev, stop_events stats' = stop_events stats ++ [ev]
           ∧ timestamp ev = ts).
Proof.
  intros Htext Hshape Hleft stats'.
  assert (Hsearch : Re.search time_pattern text = Some ts).
  { apply search_spec. exists pre, post.
    split_and!; [done|by apply time_pattern_shape|].
    intros pre' ts' post' H' Hm'. apply (Hleft pre' ts' post' H').
    by apply time_pattern_shape. }
  assert (Hts : timestamp_of text = ts).
  { unfold timestamp_of. by rewrite Hsearch. }
  destruct (process_log_line_events self text log_file stats) as [Hs Hp].
  fold stats' in Hs, Hp.
  split_and!; [done..| |].
  - intros H%contains_spec. rewrite H in Hs.
    exists (event_of text log_file). by split.
  - intros H%contains_spec. rewrite H in Hp.
    exists (event_of text log_file). by split.
Qed.

(** The timestamp ["99-99-9999 99:99:99"] is taken although no calendar has
    it, and the well-formed one that follows is not looked at. *)
Lemma first_shape_match_is_the_timestamp_witness :
  Re.search time_pattern unranged_start = Some "99-99-9999 99:99:99"
  ∧ timestamp_of unranged_start = "99-99-9999 99:99:99"
  ∧ ∃ ev,
      startup_events
        (_process_log_line demo_analyzer unranged_start "logs/app.log"
           empty_stats)
      = [] ++ [ev]
      ∧ timestamp ev = "99-99-9999 99:99:99".
Proof.
  destruct (first_shape_match_is_the_timestamp demo_analyzer unranged_start
              "logs/app.log" empty_stats "x " "99-99-9999 99:99:99"
              (" started 01-01-2024 10:00:00" +:+ newline))
    as (Hsearch & Hts & Hstart & _).
  - reflexivity.
  - exact shape_99.
  - intros [|c1 [|c2 pre']] ts' post' H Hs; [| |simpl; lia].
    + apply time_pattern_shape in Hs.
      assert (Re.match_here time_pattern unranged_start = Some ts') as Hm.
      { apply match_here_spec. exists post'. by rewrite H. }
      vm_compute in Hm. discriminate Hm.
    + apply time_pattern_shape in Hs.
      assert (unranged_start
              = String "x"
                  (" 99-99-9999 99:99:99 started 01-01-2024 10:00:00"
                   +:+ newline)) as Hline by reflexivity.
      rewrite app_cons, Hline in H. injection H as _ H.
      assert (Re.match_here time_pattern
                (" 99-99-9999 99:99:99 started 01-01-2024 10:00:00"
                 +:+ newline) = Some ts') as Hm.
      { apply match_here_spec. exists post'. by rewrite H. }
      vm_compute in Hm. discriminate Hm.
  - split_and!; [done..|]. apply Hstart. apply contains_spec. reflexivity.
Defined.

(** C8, as the code has it. For a line in which [time_pattern] finds no
    match, every event that [_process_log_line] records carries the
    timestamp ["Unknown Time"]. [_process_log_line] is a total function: it
    yields statistics for every line, with or without a timestamp. *)
Theorem process_log_line_unknown_time (self : LogAnalyzer)
    (text log_file : string) (stats : Stats) :
  Re.search time_pattern text = None →
  ∃ new_startup new_stop,
    startup_events (_process_log_line self text log_file stats)
    = startup_events stats ++ new_startup
    ∧ stop_events (_process_log_line self text log_file stats)
      = stop_events stats ++ new_stop
    ∧ Forall (λ ev, timestamp ev = "Unknown Time") (new_startup ++ new_stop).
Proof.
  intros Hnone.
  destruct (process_log_line_events self text log_file stats) as [Hs Hp].
  eexists _, _. split_and!; [exact Hs|exact Hp|].
  assert (timestamp (event_of text log_file) = "Unknown Time") as Hev.
  { unfold event_of, timestamp_of. simpl. by rewrite Hnone. }
  destruct (Str.contains (startup_msg self) text),
           (Str.contains (stop_msg self) text); simpl;
    repeat constructor; done.
Qed.

Lemma process_log_line_unknown_time_witness :
  ∃ new_startup new_stop,
    startup_events
      (_process_log_line demo_analyzer undated_start "logs/app.log" empty_stats)
    = [] ++ new_startup
    ∧ stop_events
        (_process_log_line demo_analyzer undated_start "logs/app.log"
           empty_stats)
      = [] ++ new_stop
    ∧ Forall (λ ev, timestamp ev = "Unknown Time") (new_startup ++ new_stop).
Proof.
  apply (process_log_line_unknown_time demo_analyzer undated_start
           "logs/app.log" empty_stats).
  reflexivity.
Defined.

(** The claim as worded fails: the event of an undated startup line does not
    carry the string ["unknown"]. *)
Lemma unknown_sentinel_counterexample :
  Re.search time_pattern undated_start = None
  ∧ ¬ Forall (λ ev, timestamp ev = "unknown")
        (startup_events
           (_process_log_line demo_analyzer undated_start "logs/app.log"
              empty_stats)).
Proof.
  split; [reflexivity|].
  intros H. apply Forall_cons in H as [H _]. vm_compute in H. discriminate H.
Qed.

(** ** One iteration of the incremental scan *)

Section ScanNew.

Variable fs : FileSystem.

Lemma scan_new_stat_fails (acc : ScanAcc) (p : string) :
  st_size fs p = None → scan_new fs acc p = acc.
Proof. intros H. unfold scan_new. by rewrite H. Qed.

(** A file that has not grown past its position leaves the loop state as
    it is. *)
Lemma scan_new_skip (acc : ScanAcc) (p : string) (size : nat) :
  st_size fs p = Some size → size ≤ position_of (acc_self acc) p →
  scan_new fs acc p = acc.
Proof.
  intros H Hle. unfold scan_new. rewrite H.
  by rewrite (proj2 (Nat.ltb_ge _ _) Hle).
Qed.

Lemma scan_new_directory_path (acc : ScanAcc) (p : string) :
  directory_path (acc_self (scan_new fs acc p))
  = directory_path (acc_self acc).
Proof.
  unfold scan_new. repeat case_match; done.
Qed.

Lemma scan_new_position_ne (acc : ScanAcc) (p q : string) :
  p ≠ q →
  position_of (acc_self (scan_new fs acc p)) q
  = position_of (acc_self acc) q.
Proof.
  intros Hne. unfold scan_new. repeat case_match; try done.
  unfold position_of. simpl. by rewrite lookup_insert_ne.
Qed.

(** No position ever moves back. *)
Lemma scan_new_position_mono (acc : ScanAcc) (p q : string) :
  position_of (acc_self acc) q
  ≤ position_of (acc_self (scan_new fs acc p)) q.
Proof.
  destruct (decide (p = q)) as [->|Hne];
    [|by rewrite scan_new_position_ne].
  unfold scan_new. repeat case_match; try done.
  unfold position_of at 2. simpl. rewrite lookup_insert_eq. simpl.
  match goal with H : (_ <? _) = true |- _ => apply Nat.ltb_lt in H end.
  lia.
Qed.

(** A file behind its position is as good as absent from the loop. *)
Lemma scan_loop_skips (p : string) (size : nat) (files : list string)
    (acc : ScanAcc) :
  st_size fs p = Some size → size ≤ position_of (acc_self acc) p →
  fold_left (scan_new fs) files acc
  = fold_left (scan_new fs) (filter (λ q, q ≠ p) files) acc.
Proof.
  intros Hsize. revert acc.
  induction files as [|q files IH]; intros acc Hle; [done|].
  rewrite filter_cons. simpl. destruct (decide (q ≠ p)) as [Hne|Heq].
  - simpl. apply IH. by rewrite scan_new_position_ne.
  - apply dec_stable in Heq as ->.
    rewrite (scan_new_skip acc p size) by done. by apply IH.
Qed.

Lemma scan_loop_position_ne (q : string) (files : list string)
    (acc : ScanAcc) :
  q ∉ files →
  position_of (acc_self (fold_left (scan_new fs) files acc)) q
  = position_of (acc_self acc) q.
Proof.
  revert acc. induction files as [|p files IH]; intros acc Hq; [done|].
  apply not_elem_of_cons in Hq as [Hne Hq]. simpl.
  rewrite IH by done. by apply scan_new_position_ne.
Qed.

End ScanNew.

(** ** A file smaller than its recorded position *)

(** C2, as the code has it. A file whose size is below its recorded
    position is left alone by [parse_new_logs_only]: the scan gives what it
    gives with that file taken out of the enumeration, so nothing of the
    file is classified, and its position stays what it was. *)
Theorem shrunk_file_contributes_nothing (self : LogAnalyzer)
    (fs : FileSystem) (p : string) (size : nat) :
  st_size fs p = Some size → size < position_of self p →
  let files := glob_logs fs (directory_path self) in
  fold_left (scan_new fs) files (scan_start self)
  = fold_left (scan_new fs) (filter (λ q, q ≠ p) files) (scan_start self)
  ∧ position_of (snd (parse_new_logs_only self fs)) p = position_of self p.
Proof.
  intros Hsize Hlt files.
  assert (Hskip : fold_left (scan_new fs) files (scan_start self)
    = fold_left (scan_new fs) (filter (λ q, q ≠ p) files) (scan_start self)).
  { apply (scan_loop_skips fs p size); [done|simpl; lia]. }
  split; [done|].
  unfold parse_new_logs_only. fold files. fold (scan_start self).
  destruct files as [|q files'] eqn:Hfiles; [done|].
  cbn [snd]. rewrite Hskip. rewrite scan_loop_position_ne; [done|].
  intros [Hp _]%list_elem_of_filter. done.
Qed.

Lemma shrunk_file_contributes_nothing_witness :
  let files := glob_logs shrunk_fs (directory_path ahead_analyzer) in
  fold_left (scan_new shrunk_fs) files (scan_start ahead_analyzer)
  = fold_left (scan_new shrunk_fs) (filter (λ q, q ≠ "logs/app.log") files)
      (scan_start ahead_analyzer)
  ∧ position_of (snd (parse_new_logs_only ahead_analyzer shrunk_fs))
      "logs/app.log"
    = position_of ahead_analyzer "logs/app.log".
Proof.
  apply (shrunk_file_contributes_nothing ahead_analyzer shrunk_fs
           "logs/app.log" 16).
  - reflexivity.
  - vm_compute. lia.
Defined.

(** The claim as worded fails: the shrunk file holds a startup line, yet
    the scan returns nothing and the position is neither 0 nor the size. *)
Lemma truncation_counterexample :
  st_size shrunk_fs "logs/app.log" = Some 16
  ∧ position_of ahead_analyzer "logs/app.log" = 100
  ∧ fst (parse_new_logs_only ahead_analyzer shrunk_fs) = None
  ∧ fst (parse_new_logs_only ahead_analyzer shrunk_fs)
    ≠ Some (process_lines ahead_analyzer "logs/app.log"
              (Str.lines undated_start) empty_stats)
  ∧ position_of (snd (parse_new_logs_only ahead_analyzer shrunk_fs))
      "logs/app.log" = 100.
Proof. by vm_compute. Qed.

(** ** The loop of the incremental scan *)

Section ScanLoop.

Variable fs : FileSystem.

Lemma st_size_Some (p : string) (size : nat) :
  st_size fs p = Some size ↔
  ∃ f, nodes fs !! p = Some f ∧ size = String.length (content f).
Proof.
  unfold st_size. rewrite fmap_Some. naive_solver.
Qed.

Lemma scan_loop_directory_path (files : list string) (acc : ScanAcc) :
  directory_path (acc_self (fold_left (scan_new fs) files acc))
  = directory_path (acc_self acc).
Proof.
  revert acc. induction files as [|p files IH]; intros acc; [done|].
  simpl. by rewrite IH, scan_new_directory_path.
Qed.

Lemma scan_loop_position_mono (files : list string) (acc : ScanAcc)
    (q : string) :
  position_of (acc_self acc) q
  ≤ position_of (acc_self (fold_left (scan_new fs) files acc)) q.
Proof.
  revert acc. induction files as [|p files IH]; intros acc; [done|].
  simpl. etrans; [apply (scan_new_position_mono fs acc p)|apply IH].
Qed.

(** Once a file that can be opened was visited, its position is its
    size. *)
Lemma scan_new_caught_up (acc : ScanAcc) (p : string) (size : nat) :
  (∀ f, nodes fs !! p = Some f →
        position_of (acc_self acc) p < String.length (content f) →
        reads_through f) →
  st_size fs p = Some size →
  size ≤ position_of (acc_self (scan_new fs acc p)) p.
Proof.
  intros Hread Hsize. pose proof Hsize as [f [Hf ->]]%st_size_Some.
  unfold scan_new. rewrite Hsize.
  destruct (position_of (acc_self acc) p <? String.length (content f))
    eqn:Hlt.
  - apply Nat.ltb_lt in Hlt. unfold read_from. rewrite Hf.
    destruct (Hread f Hf Hlt) as [-> ->]. unfold position_of at 1. simpl.
    by rewrite lookup_insert_eq.
  - by apply Nat.ltb_ge in Hlt.
Qed.

Lemma scan_loop_caught_up (files : list string) (acc : ScanAcc) :
  (∀ q f, q ∈ files → nodes fs !! q = Some f →
          position_of (acc_self acc) q < String.length (content f) →
          reads_through f) →
  ∀ p size, p ∈ files → st_size fs p = Some size →
  size ≤ position_of (acc_self (fold_left (scan_new fs) files acc)) p.
Proof.
  revert acc.
  induction files as [|q files IH]; intros acc Hread p size Hp Hsize.
  - by apply elem_of_nil in Hp.
  - simpl. apply elem_of_cons in Hp as [->|Hp].
    + etrans; [|apply scan_loop_position_mono].
      apply scan_new_caught_up; [|done].
      intros f Hf Hlt. apply (Hread q f); [left|done..].
    + apply IH; [|done..].
      intros r f Hr Hf Hlt. apply (Hread r f); [by right|done|].
      eapply Nat.le_lt_trans; [apply (scan_new_position_mono fs acc q)|done].
Qed.

(** A loop over files that all stand at their size changes nothing. *)
Lemma scan_loop_idle (files : list string) (acc : ScanAcc) :
  (∀ p size, p ∈ files → st_size fs p = Some size →
             size ≤ position_of (acc_self acc) p) →
  fold_left (scan_new fs) files acc = acc.
Proof.
  induction files as [|q files IH]; intros Hle; [done|].
  simpl. assert (scan_new fs acc q = acc) as ->.
  { destruct (st_size fs q) as [size|] eqn:Hsize.
    - apply (scan_new_skip fs acc q size Hsize). apply Hle; [left|done].
    - by apply scan_new_stat_fails. }
  apply IH. intros p size Hp. apply Hle. by right.
Qed.

(** A file with bytes to read whose open or read fails raises the flag,
    gives the lines read before the failure and keeps its position. *)
Lemma scan_new_failure (acc : ScanAcc) (p : string) (lines : list string) :
  has_new_bytes fs (acc_self acc) p →
  lines_before_failure fs p (position_of (acc_self acc) p) = Some lines →
  scan_new fs acc p
  = {| acc_stats := process_lines (acc_self acc) p lines (acc_stats acc);
       new_entries_found := true;
       acc_self := acc_self acc |}.
Proof.
  intros (size & Hsize & Hlt) Hfail. unfold scan_new. rewrite Hsize.
  rewrite (proj2 (Nat.ltb_lt _ _) Hlt). unfold lines_before_failure in Hfail.
  destruct (read_from fs p (position_of (acc_self acc) p)) as [[ls|ls]|];
    by simplify_eq.
Qed.

Lemma scan_new_no_new_bytes (acc : ScanAcc) (p : string) :
  ¬ has_new_bytes fs (acc_self acc) p → scan_new fs acc p = acc.
Proof.
  intros Hnot. destruct (st_size fs p) as [size|] eqn:Hsize.
  - apply (scan_new_skip fs acc p size Hsize).
    apply Nat.le_ngt. intros Hlt. apply Hnot. by exists size.
  - by apply scan_new_stat_fails.
Qed.

Lemma has_new_bytes_dec (self : LogAnalyzer) (p : string) :
  has_new_bytes fs self p ∨ ¬ has_new_bytes fs self p.
Proof.
  unfold has_new_bytes. destruct (st_size fs p) as [size|].
  - destruct (decide (position_of self p < size)).
    + left. eauto.
    + right. intros (? & [= <-] & ?). done.
  - right. by intros (? & ? & _).
Qed.

(** A loop in which every file with bytes to read fails keeps the analyzer
    and raises the flag once such a file is met; the statistics stay as they
    were when no line was read before any of the failures. *)
Lemma scan_loop_failures (files : list string) (acc : ScanAcc) :
  (∀ q, q ∈ files → has_new_bytes fs (acc_self acc) q →
        is_Some (lines_before_failure fs q (position_of (acc_self acc) q))) →
  let acc' := fold_left (scan_new fs) files acc in
  acc_self acc' = acc_self acc
  ∧ (new_entries_found acc' = true ↔
     new_entries_found acc = true
     ∨ ∃ q, q ∈ files ∧ has_new_bytes fs (acc_self acc) q)
  ∧ ((∀ q, q ∈ files → has_new_bytes fs (acc_self acc) q →
           lines_before_failure fs q (position_of (acc_self acc) q)
           = Some []) →
     acc_stats acc' = acc_stats acc).
Proof.
  revert acc. induction files as [|q files IH]; intros acc Hfiles; simpl.
  { split_and!; [done| |done]. split; [by left|].
    intros [?|(q & Hq & _)]; [done|]. by apply elem_of_nil in Hq. }
  destruct (has_new_bytes_dec (acc_self acc) q) as [Hnew|Hold].
  - destruct (Hfiles q (list_elem_of_here _ _) Hnew) as [lines Hfail].
    rewrite (scan_new_failure acc q lines) by done.
    set (acc1 := {| acc_stats := _ |}).
    destruct (IH acc1) as (Hself & Hflag & Hstats).
    { intros r Hr. apply Hfiles. by right. }
    split_and!; [done| |].
    + rewrite Hflag. split; [|intros _; by left].
      intros _. right. exists q. split; [left|done].
    + intros Hnone. rewrite Hstats.
      * specialize (Hnone q (list_elem_of_here _ _) Hnew).
        rewrite Hfail in Hnone. by simplify_eq.
      * intros r Hr. apply Hnone. by right.
  - rewrite (scan_new_no_new_bytes acc q) by done.
    destruct (IH acc) as (Hself & Hflag & Hstats).
    { intros r Hr. apply Hfiles. by right. }
    split_and!; [done| |].
    + rewrite Hflag. split.
      * intros [?|(r & Hr & Hnew)]; [by left|].
        right. exists r. split; [by right|done].
      * intros [?|(r & Hr & Hnew)]; [by left|].
        apply elem_of_cons in Hr as [->|Hr]; [done|]. right. eauto.
    + intros Hnone. apply Hstats. intros r Hr. apply Hnone. by right.
Qed.

(** After a loop in which every grown file could be opened, a second loop
    over the same files finds nothing to do. *)
Lemma scan_loop_twice (files : list string) (self : LogAnalyzer) :
  (∀ p f, p ∈ files → nodes fs !! p = Some f →
          position_of self p < String.length (content f) →
          reads_through f) →
  let self' := acc_self (fold_left (scan_new fs) files (scan_start self)) in
  fold_left (scan_new fs) files (scan_start self') = scan_start self'.
Proof.
  intros Hread self'. apply scan_loop_idle.
  intros p size Hp Hsize. subst self'. by apply scan_loop_caught_up.
Qed.

End ScanLoop.

(** ** Two incremental scans in a row *)

(** C7, as the code has it. When every enumerated file that has grown past
    its position can be opened and read to its end, a second
    [parse_new_logs_only] on the same files returns [None]. *)
Theorem second_scan_finds_nothing (self : LogAnalyzer) (fs : FileSystem) :
  (∀ p f, p ∈ glob_logs fs (directory_path self) →
          nodes fs !! p = Some f →
          position_of self p < String.length (content f) →
          reads_through f) →
  fst (parse_new_logs_only (snd (parse_new_logs_only self fs)) fs) = None.
Proof.
  intros Hread. unfold parse_new_logs_only.
  remember (glob_logs fs (directory_path self)) as files eqn:Hfiles.
  destruct files as [|p0 files0]; cbn [snd].
  - by rewrite <- Hfiles.
  - fold (scan_start self). rewrite scan_loop_directory_path.
    cbn [scan_start acc_self]. rewrite <- Hfiles.
    by rewrite scan_loop_twice.
Qed.

Lemma second_scan_finds_nothing_witness :
  fst (parse_new_logs_only (snd (parse_new_logs_only demo_analyzer demo_fs))
         demo_fs) = None.
Proof.
  apply (second_scan_finds_nothing demo_analyzer demo_fs).
  intros p f Hp Hf _.
  change (glob_logs demo_fs (directory_path demo_analyzer))
    with ["logs/app.log"] in Hp.
  apply list_elem_of_singleton in Hp as ->.
  vm_compute in Hf. by injection Hf as <-.
Defined.

(** The claim as worded fails: a log file that has bytes to read and cannot
    be opened makes the second scan return statistics again. *)
Lemma idempotence_counterexample :
  fst (parse_new_logs_only (snd (parse_new_logs_only demo_analyzer locked_fs))
         locked_fs) = Some empty_stats
  ∧ fst (parse_new_logs_only
           (snd (parse_new_logs_only demo_analyzer locked_fs)) locked_fs)
    ≠ None.
Proof. by vm_compute. Qed.

(** ** Grown files that cannot be read *)

(** C9, as the code has it. When some enumerated file has grown past its
    position and every such file fails, in [open] or while its lines are
    read, [parse_new_logs_only] returns statistics, not [None], and leaves
    the analyzer, with every position, as it was. The statistics are the
    empty ones when the failures are all failures of [open]. *)
Theorem failed_read_still_yields_stats (self : LogAnalyzer)
    (fs : FileSystem) :
  let files := glob_logs fs (directory_path self) in
  (∃ p, p ∈ files ∧ has_new_bytes fs self p) →
  (∀ q, q ∈ files → has_new_bytes fs self q →
        is_Some (lines_before_failure fs q (position_of self q))) →
  ∃ stats,
    parse_new_logs_only self fs = (Some stats, self)
    ∧ ((∀ q, q ∈ files → has_new_bytes fs self q →
             read_from fs q (position_of self q) = None) →
       stats = empty_stats).
Proof.
  intros files (p & Hp & Hnew) Hfail. unfold parse_new_logs_only.
  fold files. fold (scan_start self).
  destruct (scan_loop_failures fs files (scan_start self) Hfail)
    as (Hself & Hflag & Hstats).
  destruct files as [|p0 files0] eqn:Hfiles; [by apply elem_of_nil in Hp|].
  rewrite (proj2 Hflag) by (right; eauto). rewrite Hself.
  eexists. split; [done|]. intros Hopen. apply Hstats.
  intros q Hq Hq'. change (acc_self (scan_start self)) with self in *.
  unfold lines_before_failure. by rewrite (Hopen q Hq Hq').
Qed.

Lemma failed_read_still_yields_stats_witness :
  ∃ stats,
    parse_new_logs_only demo_analyzer locked_fs = (Some stats, demo_analyzer)
    ∧ ((∀ q, q ∈ glob_logs locked_fs (directory_path demo_analyzer) →
             has_new_bytes locked_fs demo_analyzer q →
             read_from locked_fs q (position_of demo_analyzer q) = None) →
       stats = empty_stats).
Proof.
  apply (failed_read_still_yields_stats demo_analyzer locked_fs).
  - exists "logs/app.log". split; [by vm_compute; left|].
    exists 16. split; [reflexivity|vm_compute; lia].
  - intros q Hq _.
    change (glob_logs locked_fs (directory_path demo_analyzer))
      with ["logs/app.log"] in Hq.
    apply list_elem_of_singleton in Hq as ->. by eexists.
Defined.

(** The claim as worded fails for a read that fails part-way: the startup
    line read before the error is in the statistics returned. The position
    stays at 0. *)
Lemma failed_read_counterexample :
  has_new_bytes flaky_fs demo_analyzer "logs/app.log"
  ∧ read_from flaky_fs "logs/app.log" 0 = Some (ReadInterrupted [undated_start])
  ∧ parse_new_logs_only demo_analyzer flaky_fs
    = (Some (add_startup (event_of undated_start "logs/app.log") empty_stats),
       demo_analyzer)
  ∧ fst (parse_new_logs_only demo_analyzer flaky_fs) ≠ Some empty_stats.
Proof.
  split_and!; try (by vm_compute).
  exists 21. split; [reflexivity|vm_compute; lia].
Qed.

(** ** The full scan *)

(** [parse_logs] hands the analyzer back as it got it: no position is
    written. *)
Lemma parse_logs_keeps_self (self : LogAnalyzer) (fs : FileSystem) :
  snd (parse_logs self fs) = self.
Proof.
  unfold parse_logs. by destruct (glob_logs fs (directory_path self)).
Qed.

(** C1, where the code departs from it. After the full scan of a directory
    with one log file of 64 bytes, no position is recorded for the file: the
    lookup gives the default 0, and the incremental scan that follows reads
    the file from its first byte and returns the statistics of the full scan
    once more. *)
Theorem full_scan_records_no_position :
  glob_logs demo_fs (directory_path demo_analyzer) = ["logs/app.log"]
  ∧ st_size demo_fs "logs/app.log" = Some 64
  ∧ is_Some (fst (parse_logs demo_analyzer demo_fs))
  ∧ file_positions (snd (parse_logs demo_analyzer demo_fs)) = ∅
  ∧ position_of (snd (parse_logs demo_analyzer demo_fs)) "logs/app.log" = 0
  ∧ fst (parse_new_logs_only (snd (parse_logs demo_analyzer demo_fs)) demo_fs)
    = fst (parse_logs demo_analyzer demo_fs).
Proof. split_and!; try (by vm_compute). by eexists. Qed.

(** The full scan of the two-line file: one startup event with its
    timestamp, no stop event, one ["ERROR"]. *)
Lemma full_scan_demo :
  ∃ stats,
    fst (parse_logs demo_analyzer demo_fs) = Some stats
    ∧ timestamp <$> startup_events stats = ["01-01-2024 10:00:00"]
    ∧ stop_events stats = []
    ∧ count (message_counts stats) "ERROR" = 1
    ∧ count (message_counts stats) "WARNING" = 0.
Proof. eexists. split; [reflexivity|]. by vm_compute. Qed.

(** C5, as the code has it. [parse_logs] returns [None] exactly when no
    file matches; as soon as one file matches it returns statistics, which
    are the empty ones when nothing in the files matched. *)
Theorem parse_logs_none_iff_no_files (self : LogAnalyzer) (fs : FileSystem) :
  fst (parse_logs self fs) = None
  ↔ glob_logs fs (directory_path self) = [].
Proof.
  unfold parse_logs. by destruct (glob_logs fs (directory_path self)).
Qed.

Lemma parse_logs_none_iff_no_files_witness :
  fst (parse_logs demo_analyzer empty_dir_fs) = None.
Proof.
  apply (proj2 (parse_logs_none_iff_no_files demo_analyzer empty_dir_fs)).
  reflexivity.
Defined.

(** The claim as worded fails: with no matching file the result is not the
    empty statistics; those are what a matching file without any match
    gives. *)
Lemma no_files_counterexample :
  glob_logs empty_dir_fs (directory_path demo_analyzer) = []
  ∧ fst (parse_logs demo_analyzer empty_dir_fs) ≠ Some empty_stats
  ∧ fst (parse_logs demo_analyzer quiet_fs) = Some empty_stats.
Proof. by vm_compute. Qed.

(** ** A directory that is missing *)

Lemma glob_logs_missing (fs : FileSystem) (dir : string) :
  listing fs !! dir = None → glob_logs fs dir = [].
Proof. intros H. unfold glob_logs. by rewrite H. Qed.

Lemma monitor_tick_no_files (self : LogAnalyzer) (fs : FileSystem) :
  glob_logs fs (directory_path self) = [] →
  monitor_tick self fs = ([NoNewEventsDetected], self).
Proof.
  intros H. unfold monitor_tick, parse_new_logs_only. by rewrite H.
Qed.

Lemma monitor_loop_no_files (self : LogAnalyzer) (ticks : list FileSystem) :
  Forall (λ fs, glob_logs fs (directory_path self) = []) ticks →
  monitor_loop self ticks
  = (replicate (length ticks) NoNewEventsDetected, self).
Proof.
  induction 1 as [|fs ticks Hfs Hticks IH]; [done|].
  simpl. by rewrite monitor_tick_no_files, IH.
Qed.

(** C4, as the code has it. A missing directory raises nothing: the
    enumeration is empty, [parse_logs] returns [None] and keeps the analyzer,
    which is what it does for any directory without a matching file, and
    the monitoring loop goes on, one "no new events" per scan for as long as
    the directory is missing. *)
Theorem missing_directory_is_no_files (self : LogAnalyzer)
    (fs : FileSystem) :
  listing fs !! directory_path self = None →
  parse_logs self fs = (None, self)
  ∧ (∀ fs', glob_logs fs' (directory_path self) = [] →
            parse_logs self fs' = parse_logs self fs)
  ∧ ∀ ticks,
      Forall (λ fs', listing fs' !! directory_path self = None) ticks →
      run_continuous_monitoring self fs ticks
      = (replicate (length ticks) NoNewEventsDetected, self).
Proof.
  intros Hmissing. apply glob_logs_missing in Hmissing as Hglob.
  assert (Hparse : parse_logs self fs = (None, self)).
  { unfold parse_logs. by rewrite Hglob. }
  split_and!; [done| |].
  - intros fs' Hglob'. rewrite Hparse. unfold parse_logs. by rewrite Hglob'.
  - intros ticks Hticks. unfold run_continuous_monitoring. rewrite Hparse.
    rewrite monitor_loop_no_files; [done|].
    eapply Forall_impl; [exact Hticks|]. intros fs'. apply glob_logs_missing.
Qed.

Lemma missing_directory_is_no_files_witness :
  parse_logs demo_analyzer missing_dir_fs = (None, demo_analyzer)
  ∧ (∀ fs', glob_logs fs' (directory_path demo_analyzer) = [] →
            parse_logs demo_analyzer fs'
            = parse_logs demo_analyzer missing_dir_fs)
  ∧ ∀ ticks,
      Forall (λ fs', listing fs' !! directory_path demo_analyzer = None) ticks →
      run_continuous_monitoring demo_analyzer missing_dir_fs ticks
      = (replicate (length ticks) NoNewEventsDetected, demo_analyzer).
Proof.
  apply (missing_directory_is_no_files demo_analyzer missing_dir_fs).
  reflexivity.
Defined.

(** The claim as worded fails: the full scan of a missing directory gives
    the very result of an existing directory without log files, and the loop
    started on a missing directory runs its three scans. *)
Lemma missing_directory_counterexample :
  listing missing_dir_fs !! directory_path demo_analyzer = None
  ∧ is_Some (listing empty_dir_fs !! directory_path demo_analyzer)
  ∧ ¬ (parse_logs demo_analyzer missing_dir_fs
       ≠ parse_logs demo_analyzer empty_dir_fs)
  ∧ run_continuous_monitoring demo_analyzer missing_dir_fs
      [missing_dir_fs; missing_dir_fs; missing_dir_fs]
    = ([NoNewEventsDetected; NoNewEventsDetected; NoNewEventsDetected],
       demo_analyzer).
Proof.
  split_and!; [done|by eexists| |by vm_compute].
  intros H. by apply H.
Qed.

(** ** What reaches the summarizer *)

(** C3, as the code has it. A scan of the loop sends statistics to the
    summarizer exactly when [parse_new_logs_only] returned them and one of
    the startup events, the stop events and the message counts is not
    empty; statistics that are empty throughout are not sent, no more than
    an absent result. *)
Theorem monitor_tick_summarizes_iff (self : LogAnalyzer) (fs : FileSystem)
    (stats : Stats) :
  Summarize stats ∈ fst (monitor_tick self fs)
  ↔ fst (parse_new_logs_only self fs) = Some stats
    ∧ (startup_events stats ≠ [] ∨ stop_events stats ≠ []
       ∨ message_counts stats ≠ ∅).
Proof.
  unfold monitor_tick.
  destruct (parse_new_logs_only self fs) as [[st|] self']; cbn [fst].
  - destruct (any_new st) eqn:Hany; cbn [fst].
    + unfold any_new in Hany.
      rewrite !orb_true_iff, !bool_decide_eq_true in Hany.
      unfold generate_ai_summary. rewrite !elem_of_cons, elem_of_nil. split.
      * intros [?|[[= ->]|[]]]; [done|]. split; [done|tauto].
      * intros [[= ->] _]. auto.
    + unfold any_new in Hany.
      rewrite !orb_false_iff, !bool_decide_eq_false in Hany.
      rewrite list_elem_of_singleton. split; [done|].
      intros [[= ->] ?]. tauto.
  - rewrite list_elem_of_singleton. split; [done|]. by intros [? _].
Qed.

Lemma monitor_tick_summarizes_iff_witness :
  ∃ stats, Summarize stats ∈ fst (monitor_tick demo_analyzer demo_fs).
Proof.
  eexists.
  apply (proj2 (monitor_tick_summarizes_iff demo_analyzer demo_fs _)).
  split; [by vm_compute|]. left. done.
Defined.

(** The claim as worded fails: new bytes without a match give the empty
    statistics, and the loop then reports "no new events" and sends nothing
    to the summarizer. *)
Lemma empty_stats_counterexample :
  fst (parse_new_logs_only demo_analyzer quiet_fs) = Some empty_stats
  ∧ fst (monitor_tick demo_analyzer quiet_fs) = [NoNewEventsDetected]
  ∧ Summarize empty_stats ∉ fst (monitor_tick demo_analyzer quiet_fs).
Proof.
  split_and!; [by vm_compute..|].
  assert (fst (monitor_tick demo_analyzer quiet_fs) = [NoNewEventsDetected])
    as -> by (by vm_compute).
  by intros ?%list_elem_of_singleton.
Qed.

(** * Further properties of the scanning engine *)

(** ** What a run of lines adds to the statistics *)

Section ProcessLines.

Variable self : LogAnalyzer.

Lemma process_lines_nil (p : string) (stats : Stats) :
  process_lines self p [] stats = stats.
Proof. reflexivity. Qed.

Lemma process_lines_cons (p l : string) (ls : list string) (stats : Stats) :
  process_lines self p (l :: ls) stats
  = process_lines self p ls (_process_log_line self l p stats).
Proof. reflexivity. Qed.

Lemma process_lines_startup (p : string) (ls : list string) (stats : Stats) :
  startup_events (process_lines self p ls stats)
  = startup_events stats ++ events_in (startup_msg self) p ls.
Proof.
  revert stats. induction ls as [|l ls IH]; intros stats.
  - by rewrite process_lines_nil, app_nil_r.
  - rewrite process_lines_cons, IH.
    destruct (process_log_line_events self l p stats) as [-> _].
    unfold events_in. simpl.
    destruct (Str.contains (startup_msg self) l); simpl.
    + by rewrite <- app_assoc.
    + by rewrite app_nil_r.
Qed.

Lemma process_lines_stop (p : string) (ls : list string) (stats : Stats) :
  stop_events (process_lines self p ls stats)
  = stop_events stats ++ events_in (stop_msg self) p ls.
Proof.
  revert stats. induction ls as [|l ls IH]; intros stats.
  - by rewrite process_lines_nil, app_nil_r.
  - rewrite process_lines_cons, IH.
    destruct (process_log_line_events self l p stats) as [_ ->].
    unfold events_in. simpl.
    destruct (Str.contains (stop_msg self) l); simpl.
    + by rewrite <- app_assoc.
    + by rewrite app_nil_r.
Qed.

Lemma process_log_line_counts (l p : string) (stats : Stats) :
  message_counts (_process_log_line self l p stats)
  = message_counts (count_search_terms (search_list self) l stats).
Proof.
  unfold _process_log_line.
  set (s2 := if Str.contains (stop_msg self) l then _ else _).
  assert (message_counts s2 = message_counts stats) as Hs2.
  { subst s2. by destruct (Str.contains (stop_msg self) l),
                          (Str.contains (startup_msg self) l). }
  unfold count_search_terms. revert Hs2. generalize s2 stats.
  induction (search_list self) as [|k ks IH]; intros a b Hab; [done|].
  simpl. apply IH. destruct (Str.contains k l); [|done].
  unfold add_count. simpl. by rewrite Hab.
Qed.

Lemma process_lines_count (p msg : string) (ls : list string)
    (stats : Stats) :
  count (message_counts (process_lines self p ls stats)) msg
  = count (message_counts stats) msg
    + multiplicity msg (search_list self) * lines_with msg ls.
Proof.
  revert stats. induction ls as [|l ls IH]; intros stats.
  - rewrite process_lines_nil. unfold lines_with. simpl. lia.
  - rewrite process_lines_cons, IH, process_log_line_counts.
    rewrite count_search_terms_count. unfold lines_with. simpl.
    destruct (Str.contains msg l); simpl; lia.
Qed.

End ProcessLines.

(** ** The full scan, file after file *)

Section FullScan.

Variable self : LogAnalyzer.
Variable fs : FileSystem.

Lemma process_log_file_lines (p : string) (stats : Stats) :
  _process_log_file self fs p stats
  = process_lines self p (lines_of fs p) stats.
Proof.
  unfold _process_log_file, lines_of.
  by destruct (read_from fs p 0) as [[ls|ls]|].
Qed.

Lemma events_in_app (pattern p : string) (ls ls' : list string) :
  events_in pattern p (ls ++ ls')
  = events_in pattern p ls ++ events_in pattern p ls'.
Proof. unfold events_in. by rewrite List.filter_app, List.map_app. Qed.

Lemma lines_with_app (msg : string) (ls ls' : list string) :
  lines_with msg (ls ++ ls') = lines_with msg ls + lines_with msg ls'.
Proof. unfold lines_with. by rewrite List.filter_app, length_app. Qed.

Lemma full_scan_startup (files : list string) (stats : Stats) :
  startup_events
    (fold_left (fun st p => _process_log_file self fs p st) files stats)
  = startup_events stats
    ++ flat_map (fun p => events_in (startup_msg self) p (lines_of fs p))
         files.
Proof.
  revert stats. induction files as [|p files IH]; intros stats; simpl.
  - by rewrite app_nil_r.
  - by rewrite IH, process_log_file_lines, process_lines_startup, <- app_assoc.
Qed.

Lemma full_scan_stop (files : list string) (stats : Stats) :
  stop_events
    (fold_left (fun st p => _process_log_file self fs p st) files stats)
  = stop_events stats
    ++ flat_map (fun p => events_in (stop_msg self) p (lines_of fs p)) files.
Proof.
  revert stats. induction files as [|p files IH]; intros stats; simpl.
  - by rewrite app_nil_r.
  - by rewrite IH, process_log_file_lines, process_lines_stop, <- app_assoc.
Qed.

Lemma full_scan_count (files : list string) (msg : string) (stats : Stats) :
  count (message_counts
    (fold_left (fun st p => _process_log_file self fs p st) files stats)) msg
  = count (message_counts stats) msg
    + multiplicity msg (search_list self)
      * lines_with msg (all_lines fs files).
Proof.
  unfold all_lines. revert stats.
  induction files as [|p files IH]; intros stats; simpl.
  - unfold lines_with. simpl. lia.
  - rewrite IH, process_log_file_lines, process_lines_count, lines_with_app.
    lia.
Qed.

End FullScan.

(** X1. The events of a full scan come in the order of the scan: file
    after file as enumerated, and within a file line after line; a file
    that cannot be opened adds none. *)
Theorem parse_logs_events_in_scan_order (self : LogAnalyzer)
    (fs : FileSystem) (stats : Stats) :
  fst (parse_logs self fs) = Some stats →
  startup_events stats
  = flat_map (fun p => events_in (startup_msg self) p (lines_of fs p))
      (glob_logs fs (directory_path self))
  ∧ stop_events stats
    = flat_map (fun p => events_in (stop_msg self) p (lines_of fs p))
        (glob_logs fs (directory_path self)).
Proof.
  unfold parse_logs.
  destruct (glob_logs fs (directory_path self)) as [|p files] eqn:Hglob;
    [done|].
  intros H. cbn [fst] in H. apply (inj Some) in H as <-.
  by rewrite full_scan_startup, full_scan_stop.
Qed.

Lemma parse_logs_events_in_scan_order_witness :
  ∃ stats,
    fst (parse_logs demo_analyzer demo_fs) = Some stats
    ∧ startup_events stats
      = flat_map
          (fun p =>
             events_in (startup_msg demo_analyzer) p (lines_of demo_fs p))
          (glob_logs demo_fs (directory_path demo_analyzer))
    ∧ stop_events stats
      = flat_map
          (fun p => events_in (stop_msg demo_analyzer) p (lines_of demo_fs p))
          (glob_logs demo_fs (directory_path demo_analyzer)).
Proof.
  eexists. split; [reflexivity|].
  apply (parse_logs_events_in_scan_order demo_analyzer demo_fs).
  reflexivity.
Defined.

(** X2. After a full scan the count of a keyword is the number of lines
    read that hold it, times the number of times the keyword is listed in
    [search_list]. *)
Theorem parse_logs_counts_lines (self : LogAnalyzer) (fs : FileSystem)
    (stats : Stats) (msg : string) :
  fst (parse_logs self fs) = Some stats →
  count (message_counts stats) msg
  = multiplicity msg (search_list self)
    * lines_with msg (all_lines fs (glob_logs fs (directory_path self))).
Proof.
  unfold parse_logs.
  destruct (glob_logs fs (directory_path self)) as [|p files] eqn:Hglob;
    [done|].
  intros H. cbn [fst] in H. apply (inj Some) in H as <-.
  by rewrite full_scan_count.
Qed.

Lemma parse_logs_counts_lines_witness :
  ∃ stats,
    fst (parse_logs demo_analyzer demo_fs) = Some stats
    ∧ count (message_counts stats) "ERROR"
      = multiplicity "ERROR" (search_list demo_analyzer)
        * lines_with "ERROR"
            (all_lines demo_fs
               (glob_logs demo_fs (directory_path demo_analyzer))).
Proof.
  eexists. split; [reflexivity|].
  apply (parse_logs_counts_lines demo_analyzer demo_fs).
  reflexivity.
Defined.

(** ** Invariants of the statistics *)

Lemma same_patterns_refl (self : LogAnalyzer) : same_patterns self self.
Proof. by repeat split. Qed.

Lemma same_patterns_set (self self' : LogAnalyzer) (fp : gmap string nat) :
  same_patterns self self' → same_patterns self (set_file_positions self' fp).
Proof. by intros (? & ? & ?). Qed.

Lemma scan_new_same_patterns (fs : FileSystem) (self : LogAnalyzer)
    (acc : ScanAcc) (p : string) :
  same_patterns self (acc_self acc) →
  same_patterns self (acc_self (scan_new fs acc p)).
Proof.
  intros H. unfold scan_new. repeat case_match; try done;
    by apply same_patterns_set.
Qed.

(** A property of the statistics that every processed line keeps is kept
    by both scans. *)
Section StatsInvariant.

Variable self : LogAnalyzer.
Variable I : Stats → Prop.
Hypothesis I_line :
  ∀ self' l p stats,
    same_patterns self self' → I stats →
    I (_process_log_line self' l p stats).

Lemma process_lines_keeps (self' : LogAnalyzer) (p : string)
    (ls : list string) (stats : Stats) :
  same_patterns self self' → I stats → I (process_lines self' p ls stats).
Proof.
  intros Hsame. revert stats.
  induction ls as [|l ls IH]; intros stats Hst; [done|].
  rewrite process_lines_cons. apply IH. by apply I_line.
Qed.

Lemma full_scan_keeps (fs : FileSystem) (files : list string)
    (stats : Stats) :
  I stats →
  I (fold_left (fun st p => _process_log_file self fs p st) files stats).
Proof.
  revert stats. induction files as [|p files IH]; intros stats Hst; [done|].
  simpl. apply IH. rewrite process_log_file_lines.
  apply process_lines_keeps; [apply same_patterns_refl|done].
Qed.

Lemma scan_new_keeps (fs : FileSystem) (acc : ScanAcc) (p : string) :
  same_patterns self (acc_self acc) → I (acc_stats acc) →
  I (acc_stats (scan_new fs acc p)).
Proof.
  intros Hsame Hst. unfold scan_new. repeat case_match; try done; simpl;
    by apply process_lines_keeps.
Qed.

Lemma scan_loop_keeps (fs : FileSystem) (files : list string)
    (acc : ScanAcc) :
  same_patterns self (acc_self acc) → I (acc_stats acc) →
  I (acc_stats (fold_left (scan_new fs) files acc)).
Proof.
  revert acc. induction files as [|p files IH]; intros acc Hsame Hst; [done|].
  simpl. apply IH; [by apply scan_new_same_patterns|by apply scan_new_keeps].
Qed.

Lemma scans_keep (fs : FileSystem) (stats : Stats) :
  I empty_stats →
  fst (parse_logs self fs) = Some stats
  ∨ fst (parse_new_logs_only self fs) = Some stats →
  I stats.
Proof.
  intros Hempty [H|H].
  - unfold parse_logs in H.
    destruct (glob_logs fs (directory_path self)) as [|p files]; [done|].
    cbn [fst] in H. apply (inj Some) in H as <-. by apply full_scan_keeps.
  - unfold parse_new_logs_only in H.
    destruct (glob_logs fs (directory_path self)) as [|p files]; [done|].
    cbn [fst] in H.
    destruct (new_entries_found _); [|done].
    apply (inj Some) in H as <-.
    apply scan_loop_keeps; [apply same_patterns_refl|done].
Qed.

End StatsInvariant.

(** *** The keys of the counter *)

Lemma incr_counts_ok (terms : list string) (k : string)
    (c : gmap string nat) :
  k ∈ terms → counts_ok terms c → counts_ok terms (incr k c).
Proof.
  intros Hk Hc k' n. unfold incr. rewrite lookup_insert.
  case_decide as Heq; [|apply Hc].
  intros [= <-]. subst k'. split; [lia|done].
Qed.

Lemma count_search_terms_counts_ok (terms l : list string) (text : string)
    (stats : Stats) :
  (∀ k, k ∈ l → k ∈ terms) →
  counts_ok terms (message_counts stats) →
  counts_ok terms (message_counts (count_search_terms l text stats)).
Proof.
  unfold count_search_terms. revert stats.
  induction l as [|k l IH]; intros stats Hl Hst; [done|].
  simpl. apply IH.
  - intros k' Hk'. apply Hl. by right.
  - destruct (Str.contains k text); [|done].
    apply incr_counts_ok; [apply Hl; left|done].
Qed.

Lemma process_log_line_counts_ok (self self' : LogAnalyzer) (l p : string)
    (stats : Stats) :
  same_patterns self self' →
  counts_ok (search_list self) (message_counts stats) →
  counts_ok (search_list self)
    (message_counts (_process_log_line self' l p stats)).
Proof.
  intros (_ & _ & Hlist) Hst. rewrite process_log_line_counts.
  apply count_search_terms_counts_ok; [by rewrite Hlist|done].
Qed.

(** X3. The counter that a scan returns has no key besides the keywords of
    [search_list], and no key with the count 0: a keyword that no line held
    is absent, so that the counter is empty exactly when nothing was
    counted. *)
Theorem scan_counts_only_matched_terms (self : LogAnalyzer)
    (fs : FileSystem) (stats : Stats) :
  fst (parse_logs self fs) = Some stats
  ∨ fst (parse_new_logs_only self fs) = Some stats →
  counts_ok (search_list self) (message_counts stats).
Proof.
  apply (scans_keep self
           (fun st => counts_ok (search_list self) (message_counts st))).
  - intros self' l p st. apply process_log_line_counts_ok.
  - intros k n. simpl. by rewrite lookup_empty.
Qed.

Lemma scan_counts_only_matched_terms_witness :
  ∃ stats,
    fst (parse_logs demo_analyzer demo_fs) = Some stats
    ∧ counts_ok (search_list demo_analyzer) (message_counts stats).
Proof.
  eexists. split; [reflexivity|].
  apply (scan_counts_only_matched_terms demo_analyzer demo_fs).
  left. reflexivity.
Defined.

(** *** The events *)

Lemma lstrip_head (s : string) (c : ascii) (s' : string) :
  Str.lstrip s = String c s' → Str.isspace c = false.
Proof.
  induction s as [|a s IH]; simpl; [done|].
  destruct (Str.isspace a) eqn:Ha; [done|]. by intros [= <- _].
Qed.

Lemma rstrip_last (s s' : string) (c : ascii) :
  Str.rstrip s = s' +:+ String c "" → Str.isspace c = false.
Proof.
  revert s'. induction s as [|a s IH]; intros s'; simpl.
  - by destruct s'.
  - destruct (Str.rstrip s) as [|b r] eqn:Hr.
    + destruct (Str.isspace a) eqn:Ha.
      * by destruct s'.
      * destruct s' as [|x s']; [by intros [= <-]|].
        rewrite app_cons. intros [= _ H]. by destruct s'.
    + destruct s' as [|x s']; [done|].
      rewrite app_cons. intros [= _ H]. by apply (IH s').
Qed.

Lemma rstrip_head (c : ascii) (s : string) :
  Str.isspace c = false → ∃ r, Str.rstrip (String c s) = String c r.
Proof.
  intros Hc. simpl. destruct (Str.rstrip s); [|by eexists].
  rewrite Hc. by eexists.
Qed.

Lemma strip_trimmed (s : string) : trimmed (Str.strip s).
Proof.
  unfold Str.strip. split.
  - intros c s' H. destruct (Str.lstrip s) as [|a t] eqn:Hl; [done|].
    pose proof (lstrip_head s a t Hl) as Ha.
    destruct (rstrip_head a t Ha) as [r Hr]. rewrite Hr in H.
    by injection H as <- _.
  - intros s' c. apply rstrip_last.
Qed.

Lemma contains_char_snoc (a c : ascii) (s : string) :
  Str.contains (String a "") (s +:+ String c "")
  = Str.contains (String a "") s || Ascii.eqb a c.
Proof.
  induction s as [|b s IH].
  - simpl. by rewrite andb_true_r, !orb_false_r.
  - rewrite app_cons. cbn [Str.contains]. rewrite IH. cbn [Str.startswith].
    destruct (Ascii.eqb a b); simpl; [done|].
    by destruct s.
Qed.

Lemma basename_go_no_slash (cur p : string) :
  Str.contains "/" cur = false →
  Str.contains "/" (Str.basename_go cur p) = false.
Proof.
  revert cur. induction p as [|c p IH]; intros cur Hcur; simpl; [done|].
  destruct (Ascii.eqb c "/") eqn:Hc; [by apply IH|].
  apply IH. by rewrite contains_char_snoc, Hcur, Ascii.eqb_sym, Hc.
Qed.

Lemma timestamp_of_cases (text : string) :
  timestamp_shape (timestamp_of text) ∨ timestamp_of text = unknown_time.
Proof.
  unfold timestamp_of.
  destruct (Re.search time_pattern text) as [m|] eqn:Hm; [left|by right].
  apply search_spec in Hm as (_ & _ & _ & Hm & _).
  by apply time_pattern_shape.
Qed.

Lemma event_of_well_formed (l p : string) : well_formed_event (event_of l p).
Proof.
  split_and!; simpl.
  - apply timestamp_of_cases.
  - by apply basename_go_no_slash.
  - apply strip_trimmed.
Qed.

Lemma process_log_line_well_formed (self : LogAnalyzer) (l p : string)
    (stats : Stats) :
  Forall well_formed_event (startup_events stats ++ stop_events stats) →
  Forall well_formed_event
    (startup_events (_process_log_line self l p stats)
     ++ stop_events (_process_log_line self l p stats)).
Proof.
  destruct (process_log_line_events self l p stats) as [-> ->].
  rewrite !Forall_app. intros [Hs Hp].
  pose proof (event_of_well_formed l p) as Hev.
  split_and!; try done; case_match;
    (by apply Forall_singleton) || by apply Forall_nil.
Qed.

(** X4. Every event that a scan returns is well formed: its timestamp has
    the timestamp shape or is ["Unknown Time"], its file name holds no
    ["/"], and its line neither starts nor ends with whitespace, so the
    line terminator is never part of it. *)
Theorem scan_events_well_formed (self : LogAnalyzer) (fs : FileSystem)
    (stats : Stats) :
  fst (parse_logs self fs) = Some stats
  ∨ fst (parse_new_logs_only self fs) = Some stats →
  Forall well_formed_event (startup_events stats ++ stop_events stats).
Proof.
  apply (scans_keep self
           (fun st => Forall well_formed_event
                        (startup_events st ++ stop_events st))).
  - intros self' l p st _. apply process_log_line_well_formed.
  - constructor.
Qed.

Lemma scan_events_well_formed_witness :
  ∃ stats,
    fst (parse_new_logs_only demo_analyzer demo_fs) = Some stats
    ∧ Forall well_formed_event (startup_events stats ++ stop_events stats).
Proof.
  eexists. split; [reflexivity|].
  apply (scan_events_well_formed demo_analyzer demo_fs).
  right. reflexivity.
Defined.

(** ** When the incremental scan has something to return *)

Section ScanFlag.

Variable fs : FileSystem.

Lemma scan_new_flag_mono (acc : ScanAcc) (p : string) :
  new_entries_found acc = true →
  new_entries_found (scan_new fs acc p) = true.
Proof. intros H. unfold scan_new. by repeat case_match. Qed.

Lemma scan_loop_flag_mono (files : list string) (acc : ScanAcc) :
  new_entries_found acc = true →
  new_entries_found (fold_left (scan_new fs) files acc) = true.
Proof.
  revert acc. induction files as [|p files IH]; intros acc H; [done|].
  simpl. apply IH. by apply scan_new_flag_mono.
Qed.

Lemma scan_new_flag_new (acc : ScanAcc) (p : string) :
  has_new_bytes fs (acc_self acc) p →
  new_entries_found (scan_new fs acc p) = true.
Proof.
  intros (size & Hsize & Hlt). unfold scan_new. rewrite Hsize.
  rewrite (proj2 (Nat.ltb_lt _ _) Hlt). by repeat case_match.
Qed.

Lemma scan_loop_flag (files : list string) (acc : ScanAcc) :
  new_entries_found (fold_left (scan_new fs) files acc) = true
  ↔ new_entries_found acc = true
    ∨ ∃ p, p ∈ files ∧ has_new_bytes fs (acc_self acc) p.
Proof.
  revert acc. induction files as [|q files IH]; intros acc; simpl.
  { split; [by left|]. intros [?|(p & Hp & _)]; [done|].
    by apply elem_of_nil in Hp. }
  destruct (has_new_bytes_dec fs (acc_self acc) q) as [Hnew|Hold].
  - split.
    + intros _. right. exists q. split; [left|done].
    + intros _. apply scan_loop_flag_mono. by apply scan_new_flag_new.
  - rewrite (scan_new_no_new_bytes fs acc q Hold), IH. split.
    + intros [?|(p & Hp & Hnew)]; [by left|].
      right. exists p. split; [by right|done].
    + intros [?|(p & Hp & Hnew)]; [by left|].
      apply elem_of_cons in Hp as [->|Hp]; [done|]. right. eauto.
Qed.

End ScanFlag.

(** X5. [parse_new_logs_only] returns [None] exactly when no enumerated
    file is larger than the position recorded for it; a file that has grown
    makes it return statistics whether or not the file can then be read. *)
Theorem parse_new_logs_only_none_iff (self : LogAnalyzer) (fs : FileSystem) :
  fst (parse_new_logs_only self fs) = None
  ↔ ∀ p, p ∈ glob_logs fs (directory_path self) →
         ¬ has_new_bytes fs self p.
Proof.
  unfold parse_new_logs_only.
  destruct (glob_logs fs (directory_path self)) as [|p0 files0] eqn:Hglob.
  { split; [|done]. intros _ p Hp. by apply elem_of_nil in Hp. }
  rewrite <- Hglob. clear Hglob. cbn [fst]. fold (scan_start self).
  pose proof (scan_loop_flag fs (glob_logs fs (directory_path self))
                (scan_start self)) as Hflag.
  destruct (new_entries_found _) eqn:Hfound.
  - split; [done|]. intros Hnone.
    destruct (proj1 Hflag eq_refl) as [?|(p & Hp & Hnew)]; [done|].
    by destruct (Hnone p Hp).
  - split; [|done]. intros _ p Hp Hnew.
    assert (false = true) as Habs; [|done].
    apply Hflag. right. eauto.
Qed.

Lemma parse_new_logs_only_none_iff_witness :
  fst (parse_new_logs_only ahead_analyzer shrunk_fs) = None.
Proof.
  apply (proj2 (parse_new_logs_only_none_iff ahead_analyzer shrunk_fs)).
  intros p Hp.
  change (glob_logs shrunk_fs (directory_path ahead_analyzer))
    with ["logs/app.log"] in Hp.
  apply list_elem_of_singleton in Hp as ->.
  intros (size & Hsize & Hlt). vm_compute in Hsize.
  injection Hsize as <-. vm_compute in Hlt. lia.
Defined.

(** ** How the positions move *)

Section Positions.

Variable fs : FileSystem.

Lemma scan_new_position_change (acc : ScanAcc) (q p : string) :
  position_of (acc_self (scan_new fs acc q)) p
  = position_of (acc_self acc) p
  ∨ (q = p ∧ ∃ f, nodes fs !! p = Some f ∧ reads_through f
       ∧ position_of (acc_self acc) p < String.length (content f)
       ∧ position_of (acc_self (scan_new fs acc q)) p
         = String.length (content f)).
Proof.
  destruct (decide (q = p)) as [->|Hne];
    [|left; by apply scan_new_position_ne].
  unfold scan_new, st_size, read_from.
  destruct (nodes fs !! p) as [f|] eqn:Hf; simpl; [|by left].
  destruct (position_of (acc_self acc) p <? String.length (content f))
    eqn:Hlt; [|by left].
  apply Nat.ltb_lt in Hlt.
  destruct (readable f) eqn:Hread; [|by left].
  destruct (read_fails_after f) eqn:Hfail; [by left|].
  right. split; [done|]. exists f. split_and!; try done.
  unfold position_of at 1. simpl. by rewrite lookup_insert_eq.
Qed.

Lemma scan_loop_position_change (files : list string) (acc : ScanAcc)
    (p : string) :
  position_of (acc_self (fold_left (scan_new fs) files acc)) p
  = position_of (acc_self acc) p
  ∨ (p ∈ files ∧ ∃ f, nodes fs !! p = Some f ∧ reads_through f
       ∧ position_of (acc_self acc) p < String.length (content f)
       ∧ position_of (acc_self (fold_left (scan_new fs) files acc)) p
         = String.length (content f)).
Proof.
  revert acc. induction files as [|q files IH]; intros acc; [by left|].
  simpl.
  destruct (IH (scan_new fs acc q))
    as [Hsame|(Hp & f & Hf & Hread & Hlt & Hend)].
  - rewrite Hsame.
    destruct (scan_new_position_change acc q p)
      as [?|(-> & f & Hf & Hread & Hlt & Hend)]; [by left|].
    right. split; [left|]. eauto 10.
  - right. split; [by right|]. exists f. split_and!; try done.
    eapply Nat.le_lt_trans; [apply (scan_new_position_mono fs acc q)|done].
Qed.

End Positions.

(** X6. Through [parse_new_logs_only] the position of a path either stays
    what it was or moves forward to the size of the file, and it moves only
    for an enumerated file that was opened and read to its end: no position
    moves back, none moves after a failed read, and a path that is not
    enumerated keeps its position. *)
Theorem parse_new_logs_only_position (self : LogAnalyzer) (fs : FileSystem)
    (p : string) :
  let self' := snd (parse_new_logs_only self fs) in
  position_of self' p = position_of self p
  ∨ (p ∈ glob_logs fs (directory_path self)
     ∧ ∃ f, nodes fs !! p = Some f ∧ reads_through f
        ∧ position_of self p < String.length (content f)
        ∧ position_of self' p = String.length (content f)).
Proof.
  unfold parse_new_logs_only.
  destruct (glob_logs fs (directory_path self)) as [|p0 files0] eqn:Hglob;
    [by left|].
  rewrite <- Hglob. cbn [snd].
  apply (scan_loop_position_change fs _ (scan_start self) p).
Qed.

(** ** Reading what was appended *)

Lemma drop_app_length (s t : string) :
  Str.drop (String.length s) (s +:+ t) = t.
Proof. induction s as [|a s IH]; [by destruct t|]. by rewrite app_cons. Qed.

Section OneGrownFile.

Variable fs : FileSystem.
Variable p : string.
Variable f : File.
Hypothesis p_file : nodes fs !! p = Some f.
Hypothesis p_reads : reads_through f.

Lemma scan_new_reads_through (acc : ScanAcc) :
  position_of (acc_self acc) p < String.length (content f) →
  scan_new fs acc p
  = {| acc_stats :=
         process_lines (acc_self acc) p
           (Str.lines (Str.drop (position_of (acc_self acc) p) (content f)))
           (acc_stats acc);
       new_entries_found := true;
       acc_self :=
         set_file_positions (acc_self acc)
           (<[p := String.length (content f)]>
              (file_positions (acc_self acc))) |}.
Proof.
  intros Hlt. destruct p_reads as [Hread Hfail].
  unfold scan_new, st_size, read_from. rewrite p_file. simpl.
  by rewrite (proj2 (Nat.ltb_lt _ _) Hlt), Hread, Hfail.
Qed.

(** When [p] is the one file with bytes to read, the loop does what its
    iteration on [p] does. *)
Lemma scan_loop_one_grown (files : list string) (acc : ScanAcc) :
  p ∈ files →
  position_of (acc_self acc) p < String.length (content f) →
  (∀ q, q ∈ files → q ≠ p → ¬ has_new_bytes fs (acc_self acc) q) →
  fold_left (scan_new fs) files acc = scan_new fs acc p.
Proof.
  revert acc. induction files as [|q files IH]; intros acc Hp Hlt Hothers.
  - by apply elem_of_nil in Hp.
  - simpl. destruct (decide (q = p)) as [->|Hne].
    + apply scan_loop_idle. intros r size Hr Hsize.
      destruct (decide (r = p)) as [->|Hrp].
      * rewrite scan_new_reads_through by done.
        unfold position_of. simpl. rewrite lookup_insert_eq. simpl.
        apply st_size_Some in Hsize as (f' & Hf' & ->).
        rewrite p_file in Hf'. by injection Hf' as <-.
      * rewrite scan_new_position_ne by done.
        apply Nat.le_ngt. intros Hlt'.
        apply (Hothers r); [by right|done|]. by exists size.
    + rewrite (scan_new_no_new_bytes fs acc q)
        by (apply Hothers; [left|done]).
      apply elem_of_cons in Hp as [->|Hp]; [done|].
      apply IH; [done..|]. intros r Hr. apply Hothers. by right.
Qed.

End OneGrownFile.

(** X7. When one enumerated file has had text appended since its position
    was recorded and can be read, and no other enumerated file has grown,
    [parse_new_logs_only] returns the statistics of the appended lines
    alone, and moves the position of that file, and no other, to the end of
    the file. *)
Theorem parse_new_logs_only_reads_appended (self : LogAnalyzer)
    (fs : FileSystem) (p : string) (f : File) (old extra : string) :
  p ∈ glob_logs fs (directory_path self) →
  nodes fs !! p = Some f → reads_through f →
  content f = old +:+ extra →
  position_of self p = String.length old →
  extra ≠ "" →
  (∀ q, q ∈ glob_logs fs (directory_path self) → q ≠ p →
        ¬ has_new_bytes fs self q) →
  parse_new_logs_only self fs
  = (Some (process_lines self p (Str.lines extra) empty_stats),
     set_file_positions self
       (<[p := String.length (content f)]> (file_positions self))).
Proof.
  intros Hp Hf Hread Hcontent Hpos Hextra Hothers.
  assert (Hlt : position_of self p < String.length (content f)).
  { rewrite Hcontent, Hpos. clear -Hextra.
    induction old as [|a old IH]; [destruct extra; [done|simpl; lia]|].
    rewrite app_cons. simpl. lia. }
  unfold parse_new_logs_only.
  destruct (glob_logs fs (directory_path self)) as [|p0 files0] eqn:Hglob;
    [by apply elem_of_nil in Hp|].
  rewrite <- Hglob in *. fold (scan_start self).
  rewrite (scan_loop_one_grown fs p f Hf Hread) by done.
  rewrite (scan_new_reads_through fs p f Hf Hread) by done.
  cbn [scan_start acc_self acc_stats new_entries_found].
  by rewrite Hpos, Hcontent, drop_app_length.
Qed.

Lemma parse_new_logs_only_reads_appended_witness :
  parse_new_logs_only midway_analyzer demo_fs
  = (Some (process_lines midway_analyzer "logs/app.log"
             (Str.lines ("01-01-2024 10:05:00 ERROR disk full" +:+ newline))
             empty_stats),
     set_file_positions midway_analyzer
       (<["logs/app.log" := 64]> (file_positions midway_analyzer))).
Proof.
  apply (parse_new_logs_only_reads_appended midway_analyzer demo_fs
           "logs/app.log"
           (sound_file
              ("01-01-2024 10:00:00 started" +:+ newline +:+
               "01-01-2024 10:05:00 ERROR disk full" +:+ newline))
           ("01-01-2024 10:00:00 started" +:+ newline)
           ("01-01-2024 10:05:00 ERROR disk full" +:+ newline)).
  - by vm_compute; left.
  - reflexivity.
  - by split.
  - reflexivity.
  - reflexivity.
  - done.
  - intros q Hq Hne.
    change (glob_logs demo_fs (directory_path midway_analyzer))
      with ["logs/app.log"] in Hq.
    by apply list_elem_of_singleton in Hq.
Defined.

(** ** The incremental scan of an analyzer without positions *)

Lemma process_log_line_same_patterns (self self' : LogAnalyzer)
    (l p : string) (stats : Stats) :
  same_patterns self self' →
  _process_log_line self' l p stats = _process_log_line self l p stats.
Proof.
  intros (Hstart & Hstop & Hlist). unfold _process_log_line.
  by rewrite Hstart, Hstop, Hlist.
Qed.

Lemma process_lines_same_patterns (self self' : LogAnalyzer) (p : string)
    (ls : list string) (stats : Stats) :
  same_patterns self self' →
  process_lines self' p ls stats = process_lines self p ls stats.
Proof.
  intros Hsame. revert stats. induction ls as [|l ls IH]; intros stats; [done|].
  rewrite !process_lines_cons, IH.
  by rewrite (process_log_line_same_patterns self self').
Qed.

Section FromTheStart.

Variable fs : FileSystem.
Variable self : LogAnalyzer.

(** At position 0 an iteration of the incremental loop adds to the
    statistics what [_process_log_file] adds. *)
Lemma scan_new_from_start (acc : ScanAcc) (p : string) :
  position_of (acc_self acc) p = 0 →
  acc_stats (scan_new fs acc p)
  = _process_log_file (acc_self acc) fs p (acc_stats acc).
Proof.
  intros Hpos. unfold scan_new, _process_log_file, st_size, read_from.
  rewrite Hpos. destruct (nodes fs !! p) as [f|] eqn:Hf; simpl; [|done].
  destruct (content f) as [|c text] eqn:Hcontent; simpl.
  - destruct (readable f); [|done].
    destruct (read_fails_after f) as [k|]; [|done]. by destruct k.
  - destruct (readable f); [|done].
    by destruct (read_fails_after f).
Qed.

Lemma scan_loop_from_start (files : list string) (acc : ScanAcc) :
  NoDup files →
  same_patterns self (acc_self acc) →
  (∀ p, p ∈ files → position_of (acc_self acc) p = 0) →
  acc_stats (fold_left (scan_new fs) files acc)
  = fold_left (fun st p => _process_log_file self fs p st) files
      (acc_stats acc).
Proof.
  intros Hnodup. revert acc.
  induction Hnodup as [|q files Hq Hnodup IH]; intros acc Hsame Hpos; [done|].
  simpl. rewrite IH.
  - f_equal. rewrite scan_new_from_start by (apply Hpos; left).
    rewrite !process_log_file_lines.
    by apply process_lines_same_patterns.
  - by apply scan_new_same_patterns.
  - intros p Hp. rewrite scan_new_position_ne; [apply Hpos; by right|].
    intros ->. done.
Qed.

End FromTheStart.

(** X8. For an analyzer that holds no position for the enumerated files,
    as every analyzer does that has only run full scans, the incremental
    scan returns the statistics of the full scan as soon as one enumerated
    file is not empty. *)
Theorem first_incremental_scan_is_full (self : LogAnalyzer)
    (fs : FileSystem) :
  NoDup (glob_logs fs (directory_path self)) →
  (∀ p, p ∈ glob_logs fs (directory_path self) → position_of self p = 0) →
  (∃ p, p ∈ glob_logs fs (directory_path self) ∧ has_new_bytes fs self p) →
  fst (parse_new_logs_only self fs) = fst (parse_logs self fs).
Proof.
  intros Hnodup Hpos Hnew. unfold parse_new_logs_only, parse_logs.
  destruct (glob_logs fs (directory_path self)) as [|p0 files0] eqn:Hglob.
  { destruct Hnew as (p & Hp & _). by apply elem_of_nil in Hp. }
  rewrite <- Hglob in *. cbn [fst]. fold (scan_start self).
  rewrite (proj2 (scan_loop_flag fs _ (scan_start self))) by by right.
  f_equal.
  apply (scan_loop_from_start fs self _ (scan_start self));
    [done|apply same_patterns_refl|done].
Qed.

Lemma first_incremental_scan_is_full_witness :
  fst (parse_new_logs_only demo_analyzer demo_fs)
  = fst (parse_logs demo_analyzer demo_fs).
Proof.
  apply (first_incremental_scan_is_full demo_analyzer demo_fs).
  - apply (bool_decide_unpack _). by vm_compute.
  - intros p _. reflexivity.
  - exists "logs/app.log". split; [by vm_compute; left|].
    exists 64. split; [reflexivity|vm_compute; lia].
Defined.

(** ** The monitoring loop over several scans *)

Lemma parse_new_logs_only_caught_up (self : LogAnalyzer) (fs : FileSystem) :
  (∀ p size, p ∈ glob_logs fs (directory_path self) →
             st_size fs p = Some size → size ≤ position_of self p) →
  parse_new_logs_only self fs = (None, self).
Proof.
  intros Hle. unfold parse_new_logs_only.
  destruct (glob_logs fs (directory_path self)) as [|p0 files0] eqn:Hglob;
    [done|].
  rewrite <- Hglob in *. fold (scan_start self).
  by rewrite scan_loop_idle.
Qed.

Lemma monitor_loop_caught_up (self : LogAnalyzer) (fs : FileSystem)
    (n : nat) :
  (∀ p size, p ∈ glob_logs fs (directory_path self) →
             st_size fs p = Some size → size ≤ position_of self p) →
  monitor_loop self (replicate n fs)
  = (replicate n NoNewEventsDetected, self).
Proof.
  intros Hle. induction n as [|n IH]; [done|].
  simpl. unfold monitor_tick.
  by rewrite parse_new_logs_only_caught_up, IH.
Qed.

(** X9. After an incremental scan in which every file that had grown was
    read to its end, any number of further scans of the loop on unchanged
    files report "no new events", send nothing to the summarizer and leave
    the analyzer as it is. *)
Theorem monitor_loop_idle_on_unchanged_files (self : LogAnalyzer)
    (fs : FileSystem) (n : nat) :
  (∀ p f, p ∈ glob_logs fs (directory_path self) →
          nodes fs !! p = Some f →
          position_of self p < String.length (content f) →
          reads_through f) →
  let self' := snd (parse_new_logs_only self fs) in
  monitor_loop self' (replicate n fs)
  = (replicate n NoNewEventsDetected, self').
Proof.
  intros Hread self'. apply monitor_loop_caught_up.
  subst self'. unfold parse_new_logs_only.
  destruct (glob_logs fs (directory_path self)) as [|p0 files0] eqn:Hglob.
  { cbn [snd]. rewrite Hglob. intros p size Hp. by apply elem_of_nil in Hp. }
  rewrite <- Hglob in *. cbn [snd]. fold (scan_start self).
  rewrite scan_loop_directory_path. cbn [scan_start acc_self].
  intros p size Hp Hsize. by apply scan_loop_caught_up.
Qed.

Lemma monitor_loop_idle_on_unchanged_files_witness :
  monitor_loop (snd (parse_new_logs_only demo_analyzer demo_fs))
    (replicate 3 demo_fs)
  = (replicate 3 NoNewEventsDetected,
     snd (parse_new_logs_only demo_analyzer demo_fs)).
Proof.
  apply (monitor_loop_idle_on_unchanged_files demo_analyzer demo_fs 3).
  intros p f Hp Hf _.
  change (glob_logs demo_fs (directory_path demo_analyzer))
    with ["logs/app.log"] in Hp.
  apply list_elem_of_singleton in Hp as ->.
  vm_compute in Hf. by injection Hf as <-.
Defined.

Lemma monitor_tick_summarize (self : LogAnalyzer) (fs : FileSystem)
    (stats : Stats) :
  Summarize stats ∈ fst (monitor_tick self fs) → any_new stats = true.
Proof.
  unfold monitor_tick.
  destruct (parse_new_logs_only self fs) as [[st|] self']; cbn [fst].
  - destruct (any_new st) eqn:Hany; cbn [fst].
    + unfold generate_ai_summary. rewrite !elem_of_cons, elem_of_nil.
      intros [?|[[= ->]|[]]]; done.
    + by intros ?%list_elem_of_singleton.
  - by intros ?%list_elem_of_singleton.
Qed.

(** X10. Whatever the files do, every statistics that the polling loop
    sends to the summarizer has a startup event, a stop event or a count:
    the loop never sends statistics that are empty throughout. *)
Theorem monitor_loop_summarize (ticks : list FileSystem) (self : LogAnalyzer)
    (stats : Stats) :
  Summarize stats ∈ fst (monitor_loop self ticks) → any_new stats = true.
Proof.
  revert self. induction ticks as [|fs ticks IH]; intros self; simpl.
  - by intros ?%elem_of_nil.
  - pose proof (monitor_tick_summarize self fs stats) as Htick.
    destruct (monitor_tick self fs) as [out self'].
    specialize (IH self').
    destruct (monitor_loop self' ticks) as [outs self''].
    cbn [fst] in *. rewrite elem_of_app. intros [?|?]; auto.
Qed.

Lemma monitor_loop_summarize_witness :
  any_new (default empty_stats (fst (parse_logs demo_analyzer demo_fs)))
  = true.
Proof.
  apply (monitor_loop_summarize [demo_fs; demo_fs] demo_analyzer).
  assert (fst (monitor_loop demo_analyzer [demo_fs; demo_fs])
          = [NewEventsDetected;
             Summarize
               (default empty_stats (fst (parse_logs demo_analyzer demo_fs)));
             NoNewEventsDetected]) as -> by (by vm_compute).
  apply list_elem_of_further, list_elem_of_here.
Defined.

Lemma lines_of_no_bytes (self : LogAnalyzer) (fs : FileSystem) (p : string) :
  position_of self p = 0 → ¬ has_new_bytes fs self p → lines_of fs p = [].
Proof.
  intros Hpos Hnot. unfold lines_of, read_from.
  destruct (nodes fs !! p) as [f|] eqn:Hf; [|done].
  destruct (content f) as [|c text] eqn:Hcontent.
  - destruct (readable f); [|done].
    destruct (read_fails_after f) as [k|]; [|done]. by destruct k.
  - destruct Hnot. exists (String.length (content f)). split.
    + unfold st_size. by rewrite Hf.
    + rewrite Hpos, Hcontent. simpl. lia.
Qed.

Lemma full_scan_no_bytes (self : LogAnalyzer) (fs : FileSystem)
    (files : list string) (stats : Stats) :
  (∀ p, p ∈ files → position_of self p = 0) →
  (∀ p, p ∈ files → ¬ has_new_bytes fs self p) →
  fold_left (fun st p => _process_log_file self fs p st) files stats = stats.
Proof.
  revert stats. induction files as [|p files IH]; intros stats Hpos Hnot;
    [done|].
  simpl. rewrite process_log_file_lines.
  rewrite (lines_of_no_bytes self fs p) by (apply Hpos || apply Hnot; left).
  rewrite process_lines_nil. apply IH; intros q Hq.
  - apply Hpos. by right.
  - apply Hnot. by right.
Qed.

(** X11. Because the initial scan of [run_continuous_monitoring] records no
    position, the first scan of the loop, on files that have not changed,
    finds the whole content new: when the initial statistics have an event
    or a count, the summarizer receives them twice, once from the initial
    scan and once from the first scan of the loop. *)
Theorem monitoring_repeats_initial_summary (self : LogAnalyzer)
    (fs : FileSystem) (ticks : list FileSystem) (stats : Stats) :
  NoDup (glob_logs fs (directory_path self)) →
  (∀ p, p ∈ glob_logs fs (directory_path self) → position_of self p = 0) →
  fst (parse_logs self fs) = Some stats →
  any_new stats = true →
  ∃ outs,
    fst (run_continuous_monitoring self fs (fs :: ticks))
    = Summarize stats :: NewEventsDetected :: Summarize stats :: outs.
Proof.
  intros Hnodup Hpos Hparse Hany.
  assert (Hscan : fst (parse_new_logs_only self fs) = Some stats).
  { unfold parse_new_logs_only, parse_logs in *.
    destruct (glob_logs fs (directory_path self)) as [|p0 files0] eqn:Hglob;
      [done|].
    rewrite <- Hglob in *. cbn [fst] in *. fold (scan_start self).
    apply (inj Some) in Hparse.
    pose proof (scan_loop_from_start fs self _ (scan_start self) Hnodup
                  (same_patterns_refl self) Hpos) as Hstats.
    cbn [scan_start acc_stats] in Hstats. rewrite Hparse in Hstats.
    pose proof (scan_loop_flag fs (glob_logs fs (directory_path self))
                  (scan_start self)) as Hflag.
    destruct (new_entries_found _) eqn:Hfound; [by rewrite Hstats|].
    rewrite full_scan_no_bytes in Hparse; [by subst stats|done|].
    intros p Hp Hnew. assert (false = true) as Habs; [|done].
    apply Hflag. right. eauto. }
  unfold run_continuous_monitoring.
  destruct (parse_logs self fs) as [r self0] eqn:Hp0.
  assert (self0 = self) as ->.
  { by rewrite <- (parse_logs_keeps_self self fs), Hp0. }
  cbn [fst] in Hparse. subst r. cbn [monitor_loop]. unfold monitor_tick.
  destruct (parse_new_logs_only self fs) as [r self1].
  cbn [fst] in Hscan. subst r. rewrite Hany.
  destruct (monitor_loop self1 ticks) as [outs self2].
  by exists outs.
Qed.

Lemma monitoring_repeats_initial_summary_witness :
  ∃ stats outs,
    fst (parse_logs demo_analyzer demo_fs) = Some stats
    ∧ fst (run_continuous_monitoring demo_analyzer demo_fs [demo_fs])
      = Summarize stats :: NewEventsDetected :: Summarize stats :: outs.
Proof.
  exists (default empty_stats (fst (parse_logs demo_analyzer demo_fs))).
  destruct (monitoring_repeats_initial_summary demo_analyzer demo_fs []
              (default empty_stats (fst (parse_logs demo_analyzer demo_fs))))
    as [outs Houts].
  - apply (bool_decide_unpack _). by vm_compute.
  - intros p _. reflexivity.
  - reflexivity.
  - by vm_compute.
  - exists outs. split; [reflexivity|exact Houts].
Defined.

(** ** The command line *)

Lemma preset_patterns_NoDup (p : Cli.Preset) :
  NoDup (Config.search_patterns (Cli.preset_config p)).
Proof. destruct p; apply (bool_decide_unpack _); by vm_compute. Qed.

(** X14. With any preset, the count that a full scan returns for a keyword
    of the preset is the number of lines read that hold the keyword: no
    preset lists a keyword twice. *)
Theorem preset_counts_lines (args : Cli.Args) (p : Cli.Preset)
    (fs : FileSystem) (stats : Stats) (k : string) :
  Cli.preset args = Some p →
  fst (parse_logs (Cli.analyzer_of args) fs) = Some stats →
  k ∈ Config.search_patterns (Cli.preset_config p) →
  count (message_counts stats) k
  = lines_with k (all_lines fs (glob_logs fs (Cli.directory args))).
Proof.
  intros Hp Hparse Hk. unfold parse_logs in Hparse.
  assert (Hdir : directory_path (Cli.analyzer_of args) = Cli.directory args).
  { unfold Cli.analyzer_of. by destruct (Cli.preset args). }
  assert (Hlist : search_list (Cli.analyzer_of args)
                  = Config.search_patterns (Cli.preset_config p)).
  { unfold Cli.analyzer_of. by rewrite Hp. }
  rewrite Hdir in Hparse.
  destruct (glob_logs fs (Cli.directory args)) as [|p0 files0] eqn:Hglob;
    [done|].
  rewrite <- Hglob in *. cbn [fst] in Hparse. apply (inj Some) in Hparse as <-.
  rewrite full_scan_count, Hlist.
  rewrite multiplicity_NoDup by (apply preset_patterns_NoDup || done).
  unfold count. simpl. rewrite lookup_empty. simpl. lia.
Qed.

Lemma preset_counts_lines_witness :
  ∃ stats,
    fst (parse_logs (Cli.analyzer_of demo_args) system_fs) = Some stats
    ∧ count (message_counts stats) "disk full" = 2
    ∧ count (message_counts stats) "ERROR" = 1.
Proof.
  eexists. split; [reflexivity|].
  split.
  - rewrite (preset_counts_lines demo_args Cli.system system_fs _ "disk full");
      [by vm_compute|reflexivity|reflexivity|by vm_compute; set_solver].
  - rewrite (preset_counts_lines demo_args Cli.system system_fs _ "ERROR");
      [by vm_compute|reflexivity|reflexivity|by vm_compute; set_solver].
Defined.

(** ** Reading a file in two scans *)

Section LinesSplit.

Let nl : ascii := "010"%char.
Let cr : ascii := "013"%char.

Lemma lines_go_nl (cur s : string) :
  Str.lines_go cur (String nl s)
  = (cur +:+ String nl "") :: Str.lines_go "" s.
Proof. reflexivity. Qed.

Lemma lines_go_cr_nl (cur s : string) :
  Str.lines_go cur (String cr (String nl s))
  = (cur +:+ String nl "") :: Str.lines_go "" s.
Proof. reflexivity. Qed.

Lemma lines_go_cr (cur : string) (d : ascii) (s : string) :
  d ≠ nl →
  Str.lines_go cur (String cr (String d s))
  = (cur +:+ String nl "") :: Str.lines_go "" (String d s).
Proof.
  intros Hd. cbn [Str.lines_go]. change (Ascii.eqb cr "010") with false.
  change (Ascii.eqb cr "013") with true. cbv iota. f_equal.
  destruct d as [[] [] [] [] [] [] [] []]; try reflexivity. by destruct Hd.
Qed.

Lemma lines_go_other (cur : string) (c : ascii) (s : string) :
  c ≠ nl → c ≠ cr →
  Str.lines_go cur (String c s) = Str.lines_go (cur +:+ String c "") s.
Proof.
  intros Hnl Hcr. cbn [Str.lines_go].
  rewrite (proj2 (Ascii.eqb_neq c "010") Hnl).
  by rewrite (proj2 (Ascii.eqb_neq c "013") Hcr).
Qed.

Lemma lines_go_split (n : nat) (a b cur : string) :
  String.length a ≤ n →
  Str.lines_go cur ((a +:+ String nl "") +:+ b)
  = Str.lines_go cur (a +:+ String nl "") ++ Str.lines_go "" b.
Proof.
  revert a cur. induction n as [|n IH]; intros a cur Hlen.
  { destruct a; [|simpl in Hlen; lia]. by rewrite !app_empty_l, !app_cons. }
  destruct a as [|c a]; [by rewrite !app_empty_l, !app_cons|].
  simpl in Hlen. rewrite !app_cons.
  destruct (decide (c = nl)) as [->|Hnl].
  { rewrite !lines_go_nl. simpl. f_equal. apply IH. lia. }
  destruct (decide (c = cr)) as [->|Hcr].
  - destruct a as [|d a].
    + rewrite !app_empty_l, !app_cons, !lines_go_cr_nl. by destruct b.
    + rewrite !app_cons. destruct (decide (d = nl)) as [->|Hd].
      * rewrite !lines_go_cr_nl. simpl. f_equal. apply IH.
        simpl in Hlen. lia.
      * rewrite !lines_go_cr by done. rewrite <- app_comm_cons. f_equal.
        rewrite <- !app_cons. apply IH. simpl in *. lia.
  - rewrite !lines_go_other by done. apply IH. lia.
Qed.

(** After a line terminator the lines of what follows do not depend on
    what came before. *)
Lemma lines_split (a b : string) :
  Str.lines ((a +:+ String nl "") +:+ b)
  = Str.lines (a +:+ String nl "") ++ Str.lines b.
Proof. apply (lines_go_split (String.length a)). lia. Qed.

End LinesSplit.

Lemma process_lines_app (self : LogAnalyzer) (p : string)
    (ls ls' : list string) (stats : Stats) :
  process_lines self p (ls ++ ls') stats
  = process_lines self p ls' (process_lines self p ls stats).
Proof. unfold process_lines. by rewrite fold_left_app. Qed.

(** X15. When the text of a file is read in two parts, the first of which
    ends with a line feed, as two incremental scans do when the writer
    appends whole lines, the events of the two parts one after the other
    are the events of the whole text, and the counts of the two parts add
    up to the counts of the whole. *)
Theorem scan_in_two_parts_adds_up (self : LogAnalyzer) (p a b : string) :
  let whole :=
    process_lines self p (Str.lines ((a +:+ newline) +:+ b)) empty_stats in
  let part1 := process_lines self p (Str.lines (a +:+ newline)) empty_stats in
  let part2 := process_lines self p (Str.lines b) empty_stats in
  startup_events whole = startup_events part1 ++ startup_events part2
  ∧ stop_events whole = stop_events part1 ++ stop_events part2
  ∧ ∀ k, count (message_counts whole) k
         = count (message_counts part1) k + count (message_counts part2) k.
Proof.
  intros whole part1 part2. subst whole part1 part2. unfold newline.
  rewrite lines_split. split_and!.
  - by rewrite !process_lines_startup, events_in_app.
  - by rewrite !process_lines_stop, events_in_app.
  - intros k. rewrite !process_lines_count, lines_with_app.
    unfold count. simpl. rewrite lookup_empty. simpl. lia.
Qed.

(** A line written in two pieces is read as two lines, none of which holds
    the startup pattern that the whole line holds. *)
Lemma line_in_two_pieces_is_missed :
  startup_events
    (process_lines demo_analyzer "logs/app.log"
       (Str.lines ("star" +:+ "ted" +:+ newline)) empty_stats) ≠ []
  ∧ startup_events
      (process_lines demo_analyzer "logs/app.log" (Str.lines "star")
         empty_stats) = []
  ∧ startup_events
      (process_lines demo_analyzer "logs/app.log"
         (Str.lines ("ted" +:+ newline)) empty_stats) = [].
Proof. by vm_compute. Qed.
